(** * Krohnkite tiling engine: a shallow embedding of [src/engine.ts]

    The engine owns three arrays (tiles, screens, rules) and talks to the
    window manager through its driver.  Objects of the source are mutable
    and compared by identity; here

    - a window handle ([KWin.Client]) is a natural number;
    - a [Tile] object is referred to by its index in the engine's tile
      array: every engine operation keeps each tile object exactly once in
      that array (fresh objects are pushed, the array is filtered, or two
      slots are exchanged), so the index of an object is its reference and
      [indexOf] on an object obtained from the array is that index;
    - a layout object is an address (a natural number), since
      [layouts.indexOf(layout)] compares references;
    - the window manager is an abstract state [World] with the driver's
      methods as functions on it, so every statement holds for any host. *)

From Stdlib Require Import ZArith NArith String Bool Lia.
From stdpp Require Import base tactics option list.

Local Open Scope Z_scope.

(** ** Data model *)

Definition Client := nat.

(** Modelled from the spec: the [Rect] class (x, y, width, height, all
    integers, with [clone] and [copyFrom]) is used by the engine but not
    defined in the engine source. *)
Module Rect.
Record t := mk { x : Z; y : Z; width : Z; height : Z }.

Definition clone (r : t) : t := mk (x r) (y r) (width r) (height r).

(** [this.copyFrom(r)] overwrites the four fields of [this]. *)
Definition copyFrom (this r : t) : t := mk (x r) (y r) (width r) (height r).

(** The four comparisons of [applyTileGeometry], in the order of the
    nested [if]s. *)
Definition eqb (a b : t) : bool :=
  (x a =? x b) && (y a =? y b) && (width a =? width b) && (height a =? height b).
End Rect.

Module Tile.
Record t := mk {
  arrangeCount : N;
  client : Client;
  floating : bool;
  geometry : Rect.t;
  isError : bool;
  floatGeometry : Rect.t
}.

(** [new Tile(client, geometry)] *)
Definition new (c : Client) (g : Rect.t) : t :=
  mk 0%N c false (Rect.clone g) false (Rect.clone g).

Definition setArrangeCount (n : N) (t0 : t) : t :=
  mk n (client t0) (floating t0) (geometry t0) (isError t0) (floatGeometry t0).
Definition setFloating (b : bool) (t0 : t) : t :=
  mk (arrangeCount t0) (client t0) b (geometry t0) (isError t0) (floatGeometry t0).
Definition setGeometry (g : Rect.t) (t0 : t) : t :=
  mk (arrangeCount t0) (client t0) (floating t0) g (isError t0) (floatGeometry t0).
Definition setIsError (b : bool) (t0 : t) : t :=
  mk (arrangeCount t0) (client t0) (floating t0) (geometry t0) b (floatGeometry t0).
Definition setFloatGeometry (g : Rect.t) (t0 : t) : t :=
  mk (arrangeCount t0) (client t0) (floating t0) (geometry t0) (isError t0) g.
End Tile.

Module Rule.
(** [className] is [string | null]; [None] is [null]. *)
Record t := mk {
  className : option string;
  ignore : bool;
  floating : bool
}.

(** [new Rule(className, ignore, floating)] *)
Definition new (name : string) (ign fl : bool) : t :=
  mk (if (0 <? String.length name)%nat then Some name else None) ign fl.

(** [className === rule.className] for a string [className]. *)
Definition matches (name : string) (r : t) : bool :=
  match className r with
  | Some n => String.eqb name n
  | None => false
  end.
End Rule.

(** A layout object, by address. *)
Definition Layout := nat.

(** The value of a [layout] field: [null], [undefined] (an array read out
    of range) or a layout object. *)
Inductive LayoutRef :=
| LNull
| LUndefined
| LObj (l : Layout).

Module Screen.
Record t := mk {
  id : Z;
  layout : LayoutRef;
  layouts : list Layout
}.

(** [layouts[0]] *)
Definition first (ls : list Layout) : LayoutRef :=
  match ls with
  | [] => LUndefined
  | l :: _ => LObj l
  end.

(** [new Screen(id, layouts)] with the layouts given. *)
Definition new (i : Z) (ls : list Layout) : t := mk i (first ls) ls.

Definition setLayout (l : LayoutRef) (s : t) : t := mk (id s) l (layouts s).
End Screen.

(** Modelled from the spec: the [UserInput] enumeration is declared outside
    the engine source; its members are the spec's abstract input commands. *)
Inductive UserInput :=
| Up | Down | Left | Right
| ShiftUp | ShiftDown | ShiftLeft | ShiftRight
| Increase | Decrease
| SetMaster | Float | CycleLayout.

(** The [value] argument of [setFloat]: a boolean, or a string (any string
    toggles). *)
Inductive FloatValue :=
| FBool (b : bool)
| FToggle.

(** How a call ends: it returns, it raises, or it never returns. *)
Inductive Outcome (A : Type) :=
| Ret (a : A)
| Throw
| Diverge.
Arguments Ret {A} a.
Arguments Throw {A}.
Arguments Diverge {A}.

(** ** The host

    The methods of [KWinDriver] that the engine calls, under their own
    names, the direct accesses the engine makes to the window manager
    ([workspace.activeClient.screen], [client.keepAbove],
    [client.keepBelow]) and the two methods of a layout object.  The driver
    methods only read and assign properties of the window manager's
    objects, so what they answer and what an assignment does is left to
    the host: a geometry write need not take effect.  Only
    [isClientVisible] may raise: [None] is a fault.  [getActiveClient] is
    [workspace.activeClient]: the window that has the focus, [None]
    ([null]) when no window has it. *)
Class Host (World : Type) := {
  getWorkingArea : World -> Z -> Rect.t;
  getClientClassName : World -> Client -> string;
  getClientGeometry : World -> Client -> Rect.t;
  setClientGeometry : Client -> Rect.t -> World -> World;
  isClientVisible : World -> Client -> Z -> option bool;
  isClientFullScreen : World -> Client -> bool;
  getActiveClient : World -> option Client;
  setActiveClient : Client -> World -> World;
  clientScreen : World -> Client -> Z;
  setKeepAbove : Client -> bool -> World -> World;
  setKeepBelow : Client -> bool -> World -> World;
  (** Modelled from the spec: the layout classes are outside the engine
      source; by their contract [layout.apply(tiles, area)] writes the
      target geometry of the tiles it is given and nothing else of them.
      The function gives those geometries, one per tile passed, in order,
      and what the call does to the host (the layout's own state lives
      there). *)
  layoutApply : Layout -> list Tile.t -> Rect.t -> World -> list Rect.t * World;
  layoutHandleUserInput : Layout -> UserInput -> World -> bool * World
}.

Section Engine.
Context {World : Type} `{Host World}.

(** A geometry write received by the host: [setClientGeometry] called for
    tile [wtile] (as it is at the call) with rectangle [wrect]. *)
Record GeomWrite := mkWrite { wtile : Tile.t; wrect : Rect.t }.

(** The engine's fields, the host, the geometry writes issued so far
    (newest first) and the next free layout address. *)
Record St := mkSt {
  screens : list Screen.t;
  tiles : list Tile.t;
  rules : list Rule.t;
  world : World;
  writes : list GeomWrite;
  nextLayout : nat
}.

Definition setScreens (v : list Screen.t) (s : St) : St :=
  mkSt v (tiles s) (rules s) (world s) (writes s) (nextLayout s).
Definition setTiles (v : list Tile.t) (s : St) : St :=
  mkSt (screens s) v (rules s) (world s) (writes s) (nextLayout s).
Definition setRules (v : list Rule.t) (s : St) : St :=
  mkSt (screens s) (tiles s) v (world s) (writes s) (nextLayout s).
Definition setWorld (v : World) (s : St) : St :=
  mkSt (screens s) (tiles s) (rules s) v (writes s) (nextLayout s).
Definition setNextLayout (v : nat) (s : St) : St :=
  mkSt (screens s) (tiles s) (rules s) (world s) (writes s) v.

(** [new TilingEngine(driver)] *)
Definition newEngine (w : World) : St := mkSt [] [] [] w [] 0.

(** [this.driver.setClientGeometry(tile.client, r)] *)
Definition writeGeometry (t : Tile.t) (r : Rect.t) (s : St) : St :=
  mkSt (screens s) (tiles s) (rules s)
       (setClientGeometry (Tile.client t) r (world s))
       (mkWrite t r :: writes s) (nextLayout s).

(** A field assignment on the tile object at index [i]. *)
Definition updTile (i : nat) (f : Tile.t -> Tile.t) (s : St) : St :=
  setTiles (alter f i (tiles s)) s.

(** A method that may raise: how the call ends and the state it leaves
    (what was assigned before an exception stays assigned). *)
Definition M (A : Type) : Type := St -> Outcome A * St.

Definition ret {A} (a : A) : M A := fun s => (Ret a, s).

Definition bind {A B} (m : M A) (k : A -> M B) : M B :=
  fun s =>
    match m s with
    | (Ret a, s') => k a s'
    | (Throw, s') => (Throw, s')
    | (Diverge, s') => (Diverge, s')
    end.

(** A call that cannot raise. *)
Definition lift (f : St -> St) : M unit := fun s => (Ret tt, f s).

(** A call that only reads the state. *)
Definition call {A} (f : St -> Outcome A) : M A := fun s => (f s, s).

(** [xs.forEach(body)] where [body] may raise. *)
Fixpoint forEachM {A} (body : A -> M unit) (xs : list A) : M unit :=
  match xs with
  | [] => ret tt
  | x :: rest => bind (body x) (fun _ => forEachM body rest)
  end.

(** ** Lookups *)

(** [getTileByClient]: the first tile whose client is [c]. *)
Definition getTileByClient (c : Client) (s : St) : option nat :=
  fst <$> list_find (fun t => Tile.client t = c) (tiles s).

(** [getTileByClient(this.driver.getActiveClient())]; the client of a
    tile is a window, so the search for [null] finds nothing. *)
Definition getActiveTile (s : St) : option nat :=
  getActiveClient (world s) ≫= fun c => getTileByClient c s.

(** [getActiveScreen]: reading [workspace.activeClient.screen] raises when
    no window has the focus.  Otherwise the first screen whose id is that
    of the active client's screen, else [this.screens[0]] ([None] is
    [undefined]). *)
Definition getActiveScreen (s : St) : Outcome (option nat) :=
  match getActiveClient (world s) with
  | None => Throw
  | Some c =>
      let screenId := clientScreen (world s) c in
      Ret match list_find (fun sc => Screen.id sc = screenId) (screens s) with
          | Some (i, _) => Some i
          | None => match screens s with [] => None | _ :: _ => Some 0%nat end
          end
  end.

Definition screenAt (s : St) (i : option nat) : option Screen.t :=
  i ≫= fun k => screens s !! k.

(** ** Visibility *)

(** [isTileVisible(tile, screen)] for the tile at index [i].  A fault of
    the driver, or reading [screen.id] of an undefined screen, lands in
    the [catch] block.  Every caller passes a slot of the array. *)
Definition isTileVisible (i : nat) (screen : option Screen.t) (s : St)
  : bool * St :=
  match tiles s !! i with
  | None => (false, s)
  | Some t =>
      match screen with
      | None => (false, updTile i (Tile.setIsError true) s)
      | Some sc =>
          match isClientVisible (world s) (Tile.client t) (Screen.id sc) with
          | Some b => (b, s)
          | None => (false, updTile i (Tile.setIsError true) s)
          end
      end
  end.

(** [xs.filter(p)] for a predicate with effects, over tile indices. *)
Fixpoint filterSt (p : nat -> St -> bool * St) (xs : list nat) (s : St)
  : list nat * St :=
  match xs with
  | [] => ([], s)
  | i :: rest =>
      let '(b, s1) := p i s in
      let '(ys, s2) := filterSt p rest s1 in
      (if b then i :: ys else ys, s2)
  end.

Definition allTiles (s : St) : list nat := seq 0 (length (tiles s)).

Definition getVisibleTiles (screen : option Screen.t) (s : St)
  : list nat * St :=
  filterSt (fun i => isTileVisible i screen) (allTiles s) s.

(** ** Geometry *)

(** [applyTileGeometry(tile, isUpdated)] for the tile at index [i]. *)
Definition applyTileGeometry (i : nat) (isUpdated : bool) (s : St) : St :=
  match tiles s !! i with
  | None => s
  | Some t =>
      let geometry := getClientGeometry (world s) (Tile.client t) in
      if Rect.eqb geometry (Tile.geometry t)
      then updTile i (Tile.setArrangeCount 0%N) s
      else
        let n := if isUpdated then 0%N else (Tile.arrangeCount t + 1)%N in
        let t' := Tile.setArrangeCount n t in
        let s1 := updTile i (Tile.setArrangeCount n) s in
        if (5 <? n)%N then s1
        else writeGeometry t' (Tile.geometry t') s1
  end.

(** [setFloat(tile, value, geometry)] on a tile object, which need not be
    in the tile array yet: the new tile and the new state.  The live
    geometry [tile.client.geometry] is what [getClientGeometry] copies. *)
Definition setFloat (t : Tile.t) (value : FloatValue)
    (geometry : option Rect.t) (s : St) : Tile.t * St :=
  let go (fl : bool) :=
    let t1 := Tile.setFloating fl t in
    if fl then
      (t1, writeGeometry t1 (default (Tile.floatGeometry t1) geometry) s)
    else
      (Tile.setFloatGeometry
         (Rect.copyFrom (Tile.floatGeometry t1)
            (default (getClientGeometry (world s) (Tile.client t1)) geometry))
         t1, s) in
  match value with
  | FToggle => go (negb (Tile.floating t))
  | FBool b => if Bool.eqb (Tile.floating t) b then (t, s) else go b
  end.

(** [setFloat] on the tile at index [i] of the array. *)
Definition setFloatAt (i : nat) (value : FloatValue)
    (geometry : option Rect.t) (s : St) : St :=
  match tiles s !! i with
  | None => s
  | Some t =>
      let '(t', s1) := setFloat t value geometry s in
      updTile i (fun _ => t') s1
  end.

(** ** Arrangement *)

Definition floatingAt (i : nat) (s : St) : bool :=
  match tiles s !! i with
  | Some t => Tile.floating t
  | None => false
  end.

(** The callback of the second [filter] of [arrange]: a full-screen
    window is dropped and loses its stacking markers (the chained
    assignment stores [keepBelow] first). *)
Definition notFullScreen (i : nat) (s : St) : bool * St :=
  match tiles s !! i with
  | None => (false, s)
  | Some t =>
      let c := Tile.client t in
      if isClientFullScreen (world s) c
      then (false, setWorld (setKeepAbove c false (setKeepBelow c false (world s))) s)
      else (true, s)
  end.

(** [layout.apply(tileables, area)]: the layout receives the tile objects
    and stores a geometry in each (a tile for which it gives none keeps
    its geometry). *)
Definition applyLayout (l : Layout) (tileables : list nat) (area : Rect.t)
    (s : St) : St :=
  let objs := omap (fun i => tiles s !! i) tileables in
  let '(rs, w1) := layoutApply l objs area (world s) in
  foldl (fun acc ir => updTile (fst ir) (Tile.setGeometry (snd ir)) acc)
        (setWorld w1 s) (zip tileables rs).

Definition keepBelowAt (i : nat) (s : St) : St :=
  match tiles s !! i with
  | None => s
  | Some t => setWorld (setKeepBelow (Tile.client t) true (world s)) s
  end.

Definition keepAboveAt (i : nat) (s : St) : St :=
  match tiles s !! i with
  | None => s
  | Some t => setWorld (setKeepAbove (Tile.client t) true (world s)) s
  end.

(** The body of [this.screens.forEach] in [arrange]. *)
Definition arrangeScreen (screen : Screen.t) : M unit :=
  fun s =>
    match Screen.layout screen with
    | LNull => (Ret tt, s)
    | lay =>
        let area := getWorkingArea (world s) (Screen.id screen) in
        let '(vis, s1) := getVisibleTiles (Some screen) s in
        let '(visibles, s2) := filterSt notFullScreen vis s1 in
        let tileables :=
          filter (fun i => floatingAt i s2 = false) visibles in
        match lay with
        | LObj l =>
            let s3 := applyLayout l tileables area s2 in
            let s4 :=
              foldl (fun acc i => keepBelowAt i (applyTileGeometry i true acc))
                    s3 tileables in
            let floaters :=
              filter (fun i => floatingAt i s4 = true) visibles in
            (Ret tt, foldl (fun acc i => keepAboveAt i acc) s4 floaters)
        | _ => (Throw, s2) (* [apply] called on [undefined] *)
        end
    end.

Definition arrange : M unit :=
  fun s => forEachM arrangeScreen (screens s) s.

Definition arrangeClient (c : Client) (s : St) : St :=
  match getTileByClient c s with
  | None => s
  | Some i =>
      match tiles s !! i with
      | None => s
      | Some t =>
          if Tile.floating t then s
          else if isClientFullScreen (world s) (Tile.client t) then s
          else applyTileGeometry i false s
      end
  end.

(** ** Lifecycle *)

Definition manageClient (c : Client) : M bool :=
  fun s =>
    let className := getClientClassName (world s) c in
    let ignore :=
      existsb (fun r => Rule.matches className r && Rule.ignore r) (rules s) in
    if ignore then (Ret false, s)
    else
      let tile := Tile.new c (getClientGeometry (world s) c) in
      let floating :=
        existsb (fun r => Rule.matches className r && Rule.floating r) (rules s) in
      let '(tile1, s1) :=
        if floating then setFloat tile (FBool true) None s else (tile, s) in
      let s2 := setTiles (tiles s1 ++ [tile1]) s1 in
      bind arrange (fun _ => ret true) s2.

Definition unmanageClient (c : Client) : M unit :=
  fun s =>
    let kept :=
      filter (fun t => Tile.client t ≠ c ∧ Tile.isError t = false) (tiles s) in
    arrange (setTiles kept s).

(** [new Screen(screenId)]: four fresh layout objects. *)
Definition addScreen (screenId : Z) (s : St) : St :=
  let n := nextLayout s in
  let ls := [n; S n; S (S n); S (S (S n))] in
  setNextLayout (4 + n)%nat
    (setScreens (screens s ++ [Screen.new screenId ls]) s).

Definition removeScreen (screenId : Z) (s : St) : St :=
  setScreens (filter (fun sc => Screen.id sc ≠ screenId) (screens s)) s.

Definition updateRules (rs : list Rule.t) (s : St) : St := setRules rs s.

(** ** User input *)

(** [xs.indexOf(x)] as a number. *)
Definition indexOfZ (x : nat) (xs : list nat) : Z :=
  match list_find (fun y => y = x) xs with
  | Some (i, _) => Z.of_nat i
  | None => -1
  end.

(** [while (n < 0) n += len]; [None] when the fuel runs out.  With
    [len > 0] the loop makes at most [-n] rounds; with [len = 0] and
    [n < 0] it makes no progress. *)
Fixpoint addWhileNegative (fuel : nat) (n len : Z) : option Z :=
  if n <? 0 then
    match fuel with
    | O => None
    | S fuel' => addWhileNegative fuel' (n + len) len
    end
  else Some n.

Definition moveFocus (step : Z) : M unit :=
  fun s =>
    if step =? 0 then (Ret tt, s)
    else
      match getActiveTile s with
      | None => (Ret tt, s)
      | Some ti =>
          bind (call getActiveScreen) (fun screen s =>
            let '(visibles, s1) := getVisibleTiles (screenAt s screen) s in
            let index := indexOfZ ti visibles in
            let len := Z.of_nat (length visibles) in
            let start := index + step in
            match addWhileNegative (Z.to_nat (- start)) start len with
            | None => (Diverge, s1)
            | Some k =>
                (* [k % 0] is NaN and [visibles[NaN]] is undefined *)
                if len =? 0 then (Throw, s1)
                else
                  match visibles !! Z.to_nat (Z.rem k len)
                        ≫= (fun vi => tiles s1 !! vi) with
                  | None => (Throw, s1)
                  | Some t =>
                      (Ret tt,
                       setWorld (setActiveClient (Tile.client t) (world s1)) s1)
                  end
            end) s
      end.

(** [this.tiles[tileIdx] = this.tiles[i]; this.tiles[i] = tile] where
    [tile] is the object now at [tileIdx]. *)
Definition swapTiles (tileIdx i : nat) (s : St) : St :=
  match tiles s !! tileIdx, tiles s !! i with
  | Some a, Some b => setTiles (<[i := a]> (<[tileIdx := b]> (tiles s))) s
  | _, _ => s
  end.

(** The [for] loop of [moveTile] over the indices it visits. *)
Fixpoint moveTileLoop (visit : list nat) (screen : option Screen.t)
    (dir : Z) (tileIdx : nat) (step : Z) (s : St) : St :=
  match visit with
  | [] => s
  | i :: rest =>
      let '(v, s1) := isTileVisible i screen s in
      if v then
        let s2 := swapTiles tileIdx i s1 in
        let step' := step - dir in
        if step' =? 0 then s2
        else moveTileLoop rest screen dir i step' s2
      else moveTileLoop rest screen dir tileIdx step s1
  end.

Definition moveTile (step : Z) : M unit :=
  fun s =>
    if step =? 0 then (Ret tt, s)
    else
      match getActiveTile s with
      | None => (Ret tt, s)
      | Some tileIdx =>
          bind (call getActiveScreen) (fun active s =>
            let screen := screenAt s active in
            (Ret tt,
             if 0 <? step
             then moveTileLoop
                    (seq (S tileIdx) (length (tiles s) - S tileIdx))
                    screen 1 tileIdx step s
             else moveTileLoop (rev (seq 0 tileIdx)) screen (-1) tileIdx step s)) s
      end.

(** [for (let i = index - 1; i >= 0; i--) tiles[i + 1] = tiles[i]], with
    [n] the number of iterations left. *)
Fixpoint shiftDown (n : nat) (ts : list Tile.t) : list Tile.t :=
  match n with
  | O => ts
  | S i =>
      shiftDown i (match ts !! i with
                   | Some t => <[S i := t]> ts
                   | None => ts
                   end)
  end.

Definition setMaster (s : St) : St :=
  match getActiveTile s with
  | None => s
  | Some index =>
      match tiles s !! index with
      | None => s
      | Some tile =>
          if (index =? 0)%nat then s
          else setTiles (<[0%nat := tile]> (shiftDown index (tiles s))) s
      end
  end.

Definition setClientFloat (c : Client) (value : FloatValue)
    (geometry : Rect.t) (s : St) : St :=
  match getTileByClient c s with
  | None => s
  | Some i =>
      let rect :=
        Rect.mk (Rect.x geometry) (Rect.y geometry)
                (Rect.width geometry) (Rect.height geometry) in
      setFloatAt i value (Some rect) s
  end.

(** [layouts.indexOf(layout)] *)
Definition layoutIndex (ls : list Layout) (l : LayoutRef) : Z :=
  match l with
  | LObj a =>
      match list_find (fun b => b = a) ls with
      | Some (i, _) => Z.of_nat i
      | None => -1
      end
  | _ => -1
  end.

(** [layouts[index]] for the number [(index + target) % layouts.length]. *)
Definition nextLayoutRef (sc : Screen.t) (target : Z) : LayoutRef :=
  let ls := Screen.layouts sc in
  let len := Z.of_nat (length ls) in
  if len =? 0 then LUndefined
  else
    let index := Z.rem (layoutIndex ls (Screen.layout sc) + target) len in
    if index <? 0 then LUndefined
    else match ls !! Z.to_nat index with
         | Some l => LObj l
         | None => LUndefined
         end.

Definition cycleScreen (target : Z) (sc : Screen.t) : Screen.t :=
  Screen.setLayout (nextLayoutRef sc target) sc.

Definition cycleLayout (target : Z) : M unit :=
  bind (call getActiveScreen) (fun active s =>
    match active with
    | None => (Throw, s) (* [screen.layouts] of an undefined screen *)
    | Some i => (Ret tt, setScreens (alter (cycleScreen target) i (screens s)) s)
    end).

Definition handleUserInput (input : UserInput) : M unit :=
  bind (call getActiveScreen) (fun active s =>
    match screenAt s active with
    | None => (Ret tt, s)
    | Some screen =>
        match Screen.layout screen with
        | LObj l =>
            let '(overriden, w1) := layoutHandleUserInput l input (world s) in
            let s1 := setWorld w1 s in
            if overriden then arrange s1
            else
              let step : M unit :=
                match input with
                | Up => moveFocus (-1)
                | Down => moveFocus 1
                | ShiftUp => moveTile (-1)
                | ShiftDown => moveTile 1
                | SetMaster => lift setMaster
                | Float =>
                    fun s2 =>
                      match getActiveTile s2 with
                      | Some i => (Ret tt, setFloatAt i FToggle None s2)
                      | None => (Ret tt, s2)
                      end
                | CycleLayout => cycleLayout 1
                | _ => ret tt
                end in
              bind step (fun _ => arrange) s1
        | _ => (Throw, s) (* a method call on [null] or [undefined] *)
        end
    end).
End Engine.

(** ** A host for running the engine on concrete inputs

    A window manager given by tables.  [simHonors] says whether a geometry
    write takes effect; stacking markers are not observed; every layout
    leaves the tiles where they are and intercepts no input. *)
Module Sim.
Record World := mk {
  simClass : Client -> string;
  simGeometry : Client -> Rect.t;
  simVisible : Client -> Z -> option bool;
  simFullScreen : Client -> bool;
  simActive : option Client;
  simScreen : Client -> Z;
  simHonors : bool
}.

Definition assignGeometry (c : Client) (r : Rect.t) (w : World) : World :=
  if simHonors w then
    mk (simClass w)
       (fun c' => if (c' =? c)%nat then r else simGeometry w c')
       (simVisible w) (simFullScreen w) (simActive w) (simScreen w) true
  else w.

Definition activate (c : Client) (w : World) : World :=
  mk (simClass w) (simGeometry w) (simVisible w) (simFullScreen w) (Some c)
     (simScreen w) (simHonors w).

#[export] Instance host : Host World := {|
  getWorkingArea := fun _ _ => Rect.mk 0 0 1200 800;
  getClientClassName := simClass;
  getClientGeometry := simGeometry;
  setClientGeometry := assignGeometry;
  isClientVisible := simVisible;
  isClientFullScreen := simFullScreen;
  getActiveClient := simActive;
  setActiveClient := activate;
  clientScreen := simScreen;
  setKeepAbove := fun _ _ w => w;
  setKeepBelow := fun _ _ w => w;
  layoutApply := fun _ ts _ w => (map Tile.geometry ts, w);
  layoutHandleUserInput := fun _ _ w => (false, w)
|}.

(** Every window is of class [konsole], sits at the origin with size
    100x100 on screen 0, is visible there and nowhere else, and is not
    full-screen; window 1 has the focus; writes are not honoured. *)
Definition plain : World :=
  mk (fun _ => "konsole"%string)
     (fun _ => Rect.mk 0 0 100 100)
     (fun _ sid => Some (sid =? 0))
     (fun _ => false)
     (Some 1%nat)
     (fun _ => 0)
     false.

Definition withVisible (v : Client -> Z -> option bool) (w : World) : World :=
  mk (simClass w) (simGeometry w) v (simFullScreen w) (simActive w)
     (simScreen w) (simHonors w).

Definition withFullScreen (f : Client -> bool) (w : World) : World :=
  mk (simClass w) (simGeometry w) (simVisible w) f (simActive w)
     (simScreen w) (simHonors w).

Definition withActive (c : Client) (w : World) : World := activate c w.

(** No window has the focus. *)
Definition withoutActive (w : World) : World :=
  mk (simClass w) (simGeometry w) (simVisible w) (simFullScreen w) None
     (simScreen w) (simHonors w).

Definition withClass (name : Client -> string) (w : World) : World :=
  mk name (simGeometry w) (simVisible w) (simFullScreen w) (simActive w)
     (simScreen w) (simHonors w).

(** A tile for window [c] whose target is the rectangle [0,0,400,800]. *)
Definition tileOf (c : Client) : Tile.t :=
  Tile.mk 0%N c false (Rect.mk 0 0 400 800) false (Rect.mk 0 0 100 100).

Definition state (scs : list Screen.t) (ts : list Tile.t) (w : World) : St :=
  mkSt scs ts [] w [] 0.
End Sim.

(** ** Sequences of lifecycle events *)

Section Events.
Context {World : Type} `{Host World}.
Local Abbreviation St := (@St World).

(** What the window manager can make happen between two calls: a window
    appears, a window goes away, or the host's own state changes. *)
Inductive Event :=
| Manage (c : Client)
| Unmanage (c : Client)
| HostChange (w : World).

(** The state a call leaves behind, however it ends. *)
Definition step (ev : Event) (s : St) : St :=
  match ev with
  | Manage c => snd (manageClient c s)
  | Unmanage c => snd (unmanageClient c s)
  | HostChange w => setWorld w s
  end.

Definition run (evs : list Event) (s : St) : St := foldl (fun acc ev => step ev acc) s evs.

Definition clients (s : St) : list Client := map Tile.client (tiles s).

(** No [Manage] event is for a window that has a tile at that moment. *)
Fixpoint managesUntracked (evs : list Event) (s : St) : Prop :=
  match evs with
  | [] => True
  | ev :: rest =>
      match ev with
      | Manage c => c ∉ clients s
      | _ => True
      end ∧ managesUntracked rest (step ev s)
  end.

(** [arrangeClient] called once in each of the given host states. *)
Definition arrangeClientIn (c : Client) (ws : list World) (s : St) : St :=
  foldl (fun acc w => arrangeClient c (setWorld w acc)) s ws.

(** [cycleLayout(target)] applied [n] times to a screen. *)
Definition cycleTimes (target : Z) (n : nat) (sc : Screen.t) : Screen.t :=
  Nat.iter n (cycleScreen target) sc.

(** The state after [n] calls of [cycleLayout(+1)]. *)
Definition cycleLayoutTimes (n : nat) (s : St) : St :=
  Nat.iter n (fun acc => snd (cycleLayout 1 acc)) s.
(** ** Vocabulary of the statements *)

(** What a visibility check of tile [t] against [screen] gives: [None] when
    it lands in the [catch] block. *)
Definition checkVisible (w : World) (screen : option Screen.t) (t : Tile.t)
  : option bool :=
  match screen with
  | None => None
  | Some sc => isClientVisible w (Tile.client t) (Screen.id sc)
  end.

Definition visibleOn (w : World) (screen : option Screen.t) (t : Tile.t) : bool :=
  match checkVisible w screen t with
  | Some true => true
  | _ => false
  end.

(** The tile after one visibility check. *)
Definition markFault (w : World) (screen : option Screen.t) (t : Tile.t) : Tile.t :=
  match checkVisible w screen t with
  | None => Tile.setIsError true t
  | Some _ => t
  end.

(** Whether the tile in slot [i] of [ts] passes the check. *)
Definition visibleAt (w : World) (screen : option Screen.t) (ts : list Tile.t)
    (i : nat) : bool :=
  match ts !! i with
  | Some t => visibleOn w screen t
  | None => false
  end.

(** The windows of the visible tiles of a screen, in the order of
    [getVisibleTiles]. *)
Definition visibleClients (screen : option Screen.t) (s : St) : list Client :=
  omap (fun i => Tile.client <$> tiles s !! i) (fst (getVisibleTiles screen s)).

(** [t'] is a later value of the tile object [t] that an arrangement may
    produce: same window, same mode, same float geometry, an error flag
    that was set is still set, and a floating tile keeps its target
    geometry and its retry counter. *)
Definition tileKept (t t' : Tile.t) : Prop :=
  Tile.client t' = Tile.client t ∧
  Tile.floating t' = Tile.floating t ∧
  Tile.floatGeometry t' = Tile.floatGeometry t ∧
  (Tile.isError t = true → Tile.isError t' = true) ∧
  (Tile.floating t = true →
     Tile.geometry t' = Tile.geometry t ∧
     Tile.arrangeCount t' = Tile.arrangeCount t).

(** A geometry write made for a non-floating tile of the list [ts]. *)
Definition tilingWrite (ts : list Tile.t) (w : GeomWrite) : Prop :=
  Tile.floating (wtile w) = false ∧
  ∃ i t, ts !! i = Some t ∧ tileKept t (wtile w).

(** What the tiling path may do to a state: the screens and rules stay,
    every tile object stays in its slot as a later value of itself, and
    the geometry writes added are all for non-floating tiles. *)
Record arranged (s s' : St) : Prop := mkArranged {
  arranged_screens : screens s' = screens s;
  arranged_rules : rules s' = rules s;
  arranged_next : nextLayout s' = nextLayout s;
  arranged_tiles : Forall2 tileKept (tiles s) (tiles s');
  arranged_writes :
    ∃ new, writes s' = new ++ writes s ∧ Forall (tilingWrite (tiles s)) new
}.
(** The invocations of [arrangeClient] for [c] that get past the
    full-screen guard. *)
Definition pastFullScreenGuard (c : Client) (ws : list World) : list World :=
  filter (fun w => isClientFullScreen w c = false) ws.

(** The tiles [unmanageClient] keeps. *)
Definition keptBy (c : Client) (ts : list Tile.t) : list Tile.t :=
  filter (fun t => Tile.client t ≠ c ∧ Tile.isError t = false) ts.
End Events.

(** ** Concrete states *)

Module Examples.
Import Sim.
Local Open Scope nat_scope.

Definition screen0 : Screen.t := Screen.new 0%Z [10; 11; 12; 13].

(** A screen built with a layout list that names one layout object twice. *)
Definition screenRepeated : Screen.t := Screen.new 0%Z [10; 11; 10].

(** The engine before any event. *)
Definition empty : St := newEngine plain.

(** One tile, for the focused window 1, whose target the host does not
    report; its retry counter stands at 3. *)
Definition oneTile : St :=
  state [screen0] [Tile.setArrangeCount 3%N (tileOf 1)] plain.

Definition fresh : St := state [screen0] [tileOf 1] plain.

(** The window is full-screen. *)
Definition fullScreen : World := withFullScreen (fun _ => true) plain.

(** Every visibility check faults. *)
Definition faulty : World := withVisible (fun _ _ => None) plain.

(** The state an arrange pass leaves when every check faulted. *)
Definition afterFault : St := snd (arrange (state [screen0] [tileOf 1] faulty)).

(** Three tiles; window 2 is not visible on screen 0; window 3 has the
    focus. *)
Definition hiddenMiddle : World :=
  withVisible (fun c sid => Some (negb (c =? 2) && (sid =? 0)%Z))
              (withActive 3 plain).

Definition threeTiles : St :=
  state [screen0] [tileOf 1; tileOf 2; tileOf 3] hiddenMiddle.

Definition fourTiles : St :=
  state [screen0] [tileOf 1; tileOf 2; tileOf 3; tileOf 4] (withActive 3 plain).

(** A floating tile for the focused window. *)
Definition floatingTile : St :=
  state [screen0] [Tile.setFloating true (tileOf 1)] plain.

(** An ignore rule and a floating rule for the same class. *)
Definition krunnerRules : St :=
  updateRules [Rule.new "krunner" false true; Rule.new "krunner" true false]
    (state [screen0] [tileOf 1] (withClass (fun _ => "krunner"%string) plain)).

Definition noScreens : St := state [] [tileOf 1; tileOf 2] plain.

(** No screen, and no window has the focus. *)
Definition noScreensNoFocus : St :=
  state [] [tileOf 1; tileOf 2] (withoutActive plain).

Definition repeatedLayouts : St := state [screenRepeated] [tileOf 1] plain.
End Examples.

(** ** The driver's screen bookkeeping and its visibility rule *)

Section Driver.
Context {World : Type} `{Host World}.
Local Abbreviation St := (@St World).

(** [while (this.engine.screens.length < count)
       this.engine.addScreen(this.engine.screens.length)];
    [None] when the fuel runs out. *)
Fixpoint addScreensWhile (fuel : nat) (count : Z) (s : St) : option St :=
  if Z.of_nat (length (screens s)) <? count then
    match fuel with
    | O => None
    | S fuel' =>
        addScreensWhile fuel' count (addScreen (Z.of_nat (length (screens s))) s)
    end
  else Some s.

(** [while (this.engine.screens.length > count)
       this.engine.removeScreen(this.engine.screens.length - 1)] *)
Fixpoint removeScreensWhile (fuel : nat) (count : Z) (s : St) : option St :=
  if count <? Z.of_nat (length (screens s)) then
    match fuel with
    | O => None
    | S fuel' =>
        removeScreensWhile fuel' count
          (removeScreen (Z.of_nat (length (screens s)) - 1) s)
    end
  else Some s.

(** [KWinDriver.onNumberScreensChanged(count)] *)
Definition onNumberScreensChanged (fuel : nat) (count : Z) (s : St) : option St :=
  match addScreensWhile fuel count s with
  | Some s1 => removeScreensWhile fuel count s1
  | None => None
  end.

(** The screen in slot [i] has id [i]. *)
Definition denseScreens (s : St) : Prop :=
  map Screen.id (screens s) = map Z.of_nat (seq 0 (length (screens s))).

(** What [setFloat] leaves of a tile: everything but the mode and the
    remembered float geometry. *)
Definition sameButFloat (t t' : Tile.t) : Prop :=
  Tile.client t' = Tile.client t ∧
  Tile.geometry t' = Tile.geometry t ∧
  Tile.arrangeCount t' = Tile.arrangeCount t ∧
  Tile.isError t' = Tile.isError t.

(** A later value of a tile whose retry counter was reset or left alone. *)
Definition counterNotRaised (t t' : Tile.t) : Prop :=
  Tile.client t' = Tile.client t ∧
  (Tile.arrangeCount t' = 0%N ∨ Tile.arrangeCount t' = Tile.arrangeCount t).

(** A write that sends the tile's own target with the counter at zero. *)
Definition freshTargetWrite (w : GeomWrite) : Prop :=
  wrect w = Tile.geometry (wtile w) ∧ Tile.arrangeCount (wtile w) = 0%N.

(** What a user command may do to the engine's lists: the windows of the
    tiles are the same up to order, and the rules, the ids of the screens
    and their layout lists are the same. *)
Definition keepsWindows (s s' : St) : Prop :=
  clients s' ≡ₚ clients s ∧
  rules s' = rules s ∧
  map Screen.id (screens s') = map Screen.id (screens s) ∧
  map Screen.layouts (screens s') = map Screen.layouts (screens s).

(** What an arrange pass may do to counters and what it may write. *)
Definition countersNotRaised (s s' : St) : Prop :=
  Forall2 counterNotRaised (tiles s) (tiles s') ∧
  ∃ new, writes s' = new ++ writes s ∧ Forall freshTargetWrite new.

(** The call [layouts[index]] of [cycleLayout] when it lands in the list. *)
Definition layoutAt (sc : Screen.t) (p : nat) : LayoutRef :=
  match Screen.layouts sc !! p with
  | Some l => LObj l
  | None => LUndefined
  end.
End Driver.

(** [KWinDriver.isClientVisible] over the properties it reads. *)
Module KWinDriver.
Record Window := mkWindow {
  minimized : bool;
  desktop : Z;
  activities : list string;
  screen : Z
}.

Record Workspace := mkWorkspace {
  currentDesktop : Z;
  currentActivity : string
}.

(** [activities.indexOf(currentActivity) !== -1] *)
Definition onActivity (acts : list string) (a : string) : bool :=
  existsb (String.eqb a) acts.

Definition isClientVisible (ws : Workspace) (client : Window) (screenId : Z) : bool :=
  negb (minimized client)
  && ((desktop client =? currentDesktop ws) || (desktop client =? -1))
  && ((length (activities client) =? 0)%nat
      || onActivity (activities client) (currentActivity ws))
  && (screen client =? screenId).
End KWinDriver.

(** ** More concrete states *)

Module MoreExamples.
Import Sim Examples.
Local Open Scope nat_scope.

(** The host reports every window at the target of its tile. *)
Definition onTarget : World :=
  mk (simClass plain) (fun _ => Rect.mk 0 0 400 800) (simVisible plain)
     (simFullScreen plain) (simActive plain) (simScreen plain) (simHonors plain).

Definition converged : St := state [screen0] [tileOf 1] onTarget.

(** A single screen whose id is not its slot. *)
Definition strayScreen : St := addScreen 5 empty.

(** Window 1 has the focus and nothing is visible. *)
Definition nothingVisible : St :=
  state [screen0] [tileOf 1] (withVisible (fun _ _ => Some false) plain).

(** Window 1 has the focus; the only tile before it, for window 2, is not
    visible on screen 0. *)
Definition edgeTiles : St :=
  state [screen0] [tileOf 2; tileOf 1; tileOf 3] (withActive 1 hiddenMiddle).

(** One screen, one tile, and no window has the focus. *)
Definition noFocus : St := state [screen0] [tileOf 1] (withoutActive plain).

(** A window on all desktops and all activities, on screen 1. *)
Definition stickyWindow : KWinDriver.Window :=
  KWinDriver.mkWindow false (-1) [] 1.

Definition workspace : KWinDriver.Workspace :=
  KWinDriver.mkWorkspace 2 "work".
End MoreExamples.

(** ** Facts about the lookups and the list surgery *)

Section ListFacts.
Context {World : Type} `{Host World}.
Local Abbreviation St := (@St World).

Lemma getTileByClient_Some (c : Client) (s : St) (i : nat) :
  getTileByClient c s = Some i ↔
  ∃ t, tiles s !! i = Some t ∧ Tile.client t = c ∧
       ∀ j u, tiles s !! j = Some u → (j < i)%nat → Tile.client u ≠ c.
Proof.
  unfold getTileByClient. split.
  - intros Hf. apply fmap_Some in Hf as [[k t] [Hf Hk]]. simpl in Hk. subst k.
    apply list_find_Some in Hf. exists t. exact Hf.
  - intros [t Ht]. apply fmap_Some. exists (i, t). split; [|done].
    apply list_find_Some. exact Ht.
Qed.

(** A focused tile is the first tile of the window that has the focus. *)
Lemma getActiveTile_Some (s : St) (i : nat) :
  getActiveTile s = Some i ↔
  ∃ c, getActiveClient (world s) = Some c ∧ getTileByClient c s = Some i.
Proof.
  unfold getActiveTile. destruct (getActiveClient (world s)) as [c|]; simpl.
  - split; [by exists c|]. by intros (c' & [= <-] & Hc).
  - split; [done|]. by intros (c' & [=] & _).
Qed.

(** With a focused tile there is a focused window, so [getActiveScreen]
    returns. *)
Lemma getActiveTile_getActiveScreen (s : St) (i : nat) :
  getActiveTile s = Some i → ∃ active, getActiveScreen s = Ret active.
Proof.
  intros (c & Hc & _)%getActiveTile_Some. unfold getActiveScreen.
  rewrite Hc. by eexists.
Qed.

(** The [while] loop of [moveFocus] ends when there is a visible tile,
    and the fuel given to it is enough. *)
Lemma addWhileNegative_ends (fuel : nat) (n len : Z) :
  0 < len → - n <= Z.of_nat fuel →
  ∃ k, addWhileNegative fuel n len = Some k ∧ 0 <= k ∧ (n < 0 → k < len).
Proof.
  intros Hlen. revert n. induction fuel as [|fuel IH]; intros n Hn; simpl.
  - destruct (Z.ltb_spec n 0); [lia|]. exists n. split_and!; [done|lia..].
  - destruct (Z.ltb_spec n 0) as [Hneg|Hpos].
    + destruct (IH (n + len)) as (k & Hk & Hk0 & Hklt); [lia|].
      exists k. split_and!; [done..|]. intros _.
      destruct (Z.ltb_spec (n + len) 0) as [?|Hge]; [by apply Hklt|].
      destruct fuel; simpl in Hk;
        destruct (Z.ltb_spec (n + len) 0); try lia; simplify_eq; lia.
    + exists n. split_and!; [done|lia..].
Qed.

(** It never ends when nothing is visible and the index is negative. *)
Lemma addWhileNegative_stuck (fuel : nat) (n : Z) :
  n < 0 → addWhileNegative fuel n 0 = None.
Proof.
  intros Hn. induction fuel as [|fuel IH]; simpl;
    destruct (Z.ltb_spec n 0); try lia; [done|].
  by rewrite Z.add_0_r.
Qed.

(** The copying loop of [setMaster] moves the first [n] tiles one slot
    down and leaves a second copy of the first tile in front. *)
Lemma shiftDown_take_drop (n : nat) (ts : list Tile.t) :
  (n < length ts)%nat →
  shiftDown n ts = take 1 ts ++ take n ts ++ drop (S n) ts.
Proof.
  revert ts. induction n as [|i IH]; intros ts Hlen.
  - simpl. destruct ts as [|a ts]; [simpl in Hlen; lia|]. simpl.
    by rewrite drop_0.
  - simpl. destruct (lookup_lt_is_Some_2 ts i) as [x Hx]; [lia|].
    rewrite Hx. rewrite IH by (rewrite length_insert; lia).
    rewrite !take_insert_ge by lia.
    rewrite drop_insert_ge by lia. replace (S i - S i)%nat with 0%nat by lia.
    rewrite (take_S_r ts i x Hx).
    replace (drop (S (S i)) ts) with (drop 1 (drop (S i) ts))
      by (rewrite drop_drop; f_equal; lia).
    destruct (drop (S i) ts) as [|b rest] eqn:Hd.
    { apply (f_equal length) in Hd. rewrite length_drop in Hd. simpl in Hd. lia. }
    simpl. rewrite drop_0. by rewrite <- !app_assoc.
Qed.

Lemma setMaster_tiles (s : St) (idx : nat) (T : Tile.t) :
  getActiveTile s = Some idx → tiles s !! idx = Some T →
  tiles (setMaster s) = T :: delete idx (tiles s).
Proof.
  intros Hact HT. unfold setMaster. rewrite Hact, HT.
  pose proof (lookup_lt_Some _ _ _ HT) as Hlt.
  destruct (Nat.eqb_spec idx 0) as [->|Hne].
  - destruct (tiles s) as [|a ts]; by simplify_eq/=.
  - cbn [tiles setTiles]. rewrite shiftDown_take_drop by done.
    destruct (tiles s) as [|a ts] eqn:Hts; [done|].
    destruct idx as [|i]; [done|]. cbn.
    rewrite take_0. simpl. by rewrite (delete_take_drop ts).
Qed.

(** A screen whose active layout sits at position [i] of a list without
    repeated entries moves to position [(i + 1) mod L]. *)
Lemma cycleScreen_position (sc : Screen.t) (i : nat) (l : Layout) :
  NoDup (Screen.layouts sc) →
  Screen.layouts sc !! i = Some l →
  Screen.layout sc = LObj l →
  ∃ l', Screen.layouts sc !! ((i + 1) mod length (Screen.layouts sc))%nat = Some l' ∧
        cycleScreen 1 sc = Screen.mk (Screen.id sc) (LObj l') (Screen.layouts sc).
Proof.
  intros Hnd Hi Hl.
  pose proof (lookup_lt_Some _ _ _ Hi) as Hlt.
  set (L := length (Screen.layouts sc)) in *.
  assert (Hpos : ((i + 1) mod L < L)%nat) by (apply Nat.mod_upper_bound; lia).
  destruct (lookup_lt_is_Some_2 (Screen.layouts sc) ((i + 1) mod L)%nat Hpos)
    as [l' Hl'].
  exists l'. split; [exact Hl'|].
  unfold cycleScreen, nextLayoutRef, layoutIndex. rewrite Hl.
  assert (Hfind : list_find (fun b => b = l) (Screen.layouts sc) = Some (i, l)).
  { apply list_find_Some. split_and!; [done..|].
    intros j y Hj Hji ->. assert (j = i) by (eapply NoDup_lookup; eauto). lia. }
  rewrite Hfind. fold L.
  destruct (Z.eqb_spec (Z.of_nat L) 0) as [?|_]; [lia|].
  assert (Hrem : Z.rem (Z.of_nat i + 1) (Z.of_nat L) = Z.of_nat ((i + 1) mod L)).
  { rewrite Z.rem_mod_nonneg by lia. rewrite Nat2Z.inj_mod. f_equal. lia. }
  rewrite Hrem.
  destruct (Z.ltb_spec (Z.of_nat ((i + 1) mod L)) 0) as [?|_]; [lia|].
  rewrite Nat2Z.id, Hl'. done.
Qed.

Lemma cycleTimes_position (n : nat) (sc : Screen.t) (i : nat) (l : Layout) :
  NoDup (Screen.layouts sc) →
  Screen.layouts sc !! i = Some l →
  Screen.layout sc = LObj l →
  ∃ l', Screen.layouts sc !! ((i + n) mod length (Screen.layouts sc))%nat = Some l' ∧
        cycleTimes 1 n sc = Screen.mk (Screen.id sc) (LObj l') (Screen.layouts sc).
Proof.
  intros Hnd Hi Hl. pose proof (lookup_lt_Some _ _ _ Hi) as Hlt.
  induction n as [|n IH].
  - exists l. rewrite Nat.add_0_r, Nat.mod_small by done. split; [done|].
    simpl. destruct sc; simpl in *; by subst.
  - destruct IH as [l1 [Hl1 Hc]].
    unfold cycleTimes in *. simpl. rewrite Hc.
    destruct (cycleScreen_position
                (Screen.mk (Screen.id sc) (LObj l1) (Screen.layouts sc))
                ((i + n) mod length (Screen.layouts sc))%nat l1)
      as [l2 [Hl2 Hc2]]; simpl; [done..|].
    exists l2. simpl in *. split; [|done].
    rewrite <- Hl2. f_equal.
    rewrite Nat.Div0.add_mod_idemp_l. f_equal. lia.
Qed.

Lemma list_find_alter_id (scs : list Screen.t) (f : Screen.t → Screen.t)
    (i : nat) (z : Z) :
  (∀ sc, Screen.id (f sc) = Screen.id sc) →
  fst <$> list_find (fun sc => Screen.id sc = z) (alter f i scs)
  = fst <$> list_find (fun sc => Screen.id sc = z) scs.
Proof.
  intros Hid. revert i. induction scs as [|a scs IH]; intros i; [done|].
  destruct i as [|i]; simpl.
  - rewrite Hid. by destruct (decide (Screen.id a = z)).
  - destruct (decide (Screen.id a = z)); [done|].
    rewrite <- !option_fmap_compose.
    assert (Hc : ∀ o : option (nat * Screen.t),
               fst ∘ prod_map S id <$> o = S <$> (fst <$> o))
      by (by intros [[??]|]).
    rewrite !Hc. f_equal. exact (IH i).
Qed.

Lemma getActiveScreen_alter (s : St) (f : Screen.t → Screen.t) (i : nat) :
  (∀ sc, Screen.id (f sc) = Screen.id sc) →
  getActiveScreen (setScreens (alter f i (screens s)) s) = getActiveScreen s.
Proof.
  intros Hid. unfold getActiveScreen. simpl.
  destruct (getActiveClient (world s)) as [c|]; [|done]. f_equal.
  pose proof (list_find_alter_id (screens s) f i
                (clientScreen (world s) c) Hid) as Hf.
  destruct (list_find _ (alter f i (screens s))) as [[k1 x1]|],
           (list_find _ (screens s)) as [[k2 x2]|]; simplify_eq/=; [done|].
  destruct (screens s) as [|a scs]; [done|]. by destruct i.
Qed.

Lemma cycleLayoutTimes_alter (n : nat) (s : St) (i : nat) :
  getActiveScreen s = Ret (Some i) →
  cycleLayoutTimes n s = setScreens (alter (cycleTimes 1 n) i (screens s)) s.
Proof.
  intros Hact. induction n as [|n IH].
  - unfold cycleLayoutTimes, cycleTimes. simpl.
    rewrite (list_alter_id (fun x => x)) by done. by destruct s.
  - unfold cycleLayoutTimes in *. simpl. rewrite IH.
    unfold cycleLayout, bind, call. rewrite getActiveScreen_alter.
    + rewrite Hact. simpl. unfold setScreens. simpl. f_equal.
      by rewrite list_alter_alter_eq.
    + intros sc. unfold cycleTimes. clear. induction n; [done|]. simpl. done.
Qed.
End ListFacts.

(** ** Master promotion, layout cycling, ignore rules, empty screen list *)

Section Claims.
Context {World : Type} `{Host World}.
Local Abbreviation St := (@St World).

(** C6. [setMaster]: when the active client resolves to the tile [T] at
    index [idx], afterwards [T] is at index 0, every tile that was before
    [T] is one slot further down, every tile that was after [T] keeps its
    slot (so the tiles other than [T] keep their relative order: the new
    list is [T] followed by the old list with slot [idx] removed), and
    nothing else changes; when [T] is already at index 0, or when the
    active client has no tile, the state is unchanged. *)
Theorem setMaster_promotes_focused_tile (s : St) :
  (∀ idx, getActiveTile s = Some idx →
     ∃ T, tiles s !! idx = Some T ∧
          getActiveClient (world s) = Some (Tile.client T) ∧
          setMaster s = setTiles (T :: delete idx (tiles s)) s ∧
          tiles (setMaster s) !! 0%nat = Some T ∧
          (∀ k, (k < idx)%nat → tiles (setMaster s) !! S k = tiles s !! k) ∧
          (∀ k, (idx < k)%nat → tiles (setMaster s) !! k = tiles s !! k)) ∧
  (getActiveTile s = Some 0%nat → setMaster s = s) ∧
  (getActiveTile s = None → setMaster s = s).
Proof.
  split_and!.
  - intros idx Hact.
    pose proof Hact as Hfind.
    apply getActiveTile_Some in Hfind as (c & Hfocus & Hfind).
    apply getTileByClient_Some in Hfind as [T (HT & Hc & _)].
    rewrite <- Hc in Hfocus.
    exists T. pose proof (setMaster_tiles s idx T Hact HT) as Hts.
    assert (Heq : setMaster s = setTiles (T :: delete idx (tiles s)) s).
    { rewrite <- Hts. unfold setMaster. rewrite Hact, HT.
      destruct (idx =? 0)%nat; by destruct s. }
    split_and!; [done..| | |].
    + by rewrite Hts.
    + intros k Hk. rewrite Hts. simpl. by apply list_lookup_delete_lt.
    + intros k Hk. rewrite Hts. destruct k as [|k]; [lia|]. simpl.
      apply list_lookup_delete_ge. lia.
  - intros Hact. unfold setMaster. rewrite Hact.
    by destruct (tiles s !! 0%nat).
  - intros Hact. unfold setMaster. by rewrite Hact.
Qed.

(** C9, amended. On a screen whose [layouts] list has no repeated entry
    and whose active layout is an entry of that list, one forward
    [cycleLayout] moves the active layout from position [p] to position
    [(p + 1) mod L], and [L] forward cycles in succession give back the
    state they started from. *)
Theorem cycleLayout_full_round (s : St) (i : nat) (sc : Screen.t) (l : Layout) :
  getActiveScreen s = Ret (Some i) →
  screens s !! i = Some sc →
  NoDup (Screen.layouts sc) →
  Screen.layout sc = LObj l →
  l ∈ Screen.layouts sc →
  cycleLayoutTimes (length (Screen.layouts sc)) s = s ∧
  (∀ p, Screen.layouts sc !! p = Some l →
        Screen.layout <$> (screens (snd (cycleLayout 1 s)) !! i)
        = LObj <$> (Screen.layouts sc !! ((p + 1) mod length (Screen.layouts sc))%nat)).
Proof.
  intros Hact Hsc Hnd Hl Hin.
  apply list_elem_of_lookup in Hin as [p Hp]. split.
  - rewrite (cycleLayoutTimes_alter _ s i Hact).
    destruct (cycleTimes_position (length (Screen.layouts sc)) sc p l Hnd Hp Hl)
      as [l' [Hl' Hc]].
    assert (l' = l) as ->.
    { replace ((p + length (Screen.layouts sc)) mod length (Screen.layouts sc))%nat
        with p in Hl'; [congruence|].
      pose proof (lookup_lt_Some _ _ _ Hp).
      rewrite <- (Nat.mul_1_l (length (Screen.layouts sc))) at 1.
      rewrite Nat.Div0.mod_add. by rewrite Nat.mod_small. }
    assert (Hfix : cycleTimes 1 (length (Screen.layouts sc)) sc = sc).
    { rewrite Hc. destruct sc; simpl in *; by subst. }
    rewrite (list_alter_ext _ (fun x => x) _ (screens s) i); [| |done].
    + rewrite list_alter_id by done. by destruct s.
    + intros x Hx. congruence.
  - intros q Hq. assert (q = p) as -> by (eapply NoDup_lookup; eauto).
    destruct (cycleScreen_position sc p l Hnd Hp Hl) as [l' [Hl' Hc]].
    unfold cycleLayout, bind, call. rewrite Hact. simpl.
    rewrite list_lookup_alter_eq, Hsc. simpl. rewrite Hl'. simpl.
    apply (f_equal Screen.layout) in Hc. simpl in Hc. by rewrite <- Hc.
Qed.

(** C5. A window whose class name is that of some rule with [ignore] set
    is rejected by [manageClient]: the call returns [false] and leaves the
    whole state as it was (no tile is created, no write is issued),
    whatever the other rules say. *)
Theorem manageClient_ignore_rule (c : Client) (s : St) (r : Rule.t) :
  r ∈ rules s →
  Rule.className r = Some (getClientClassName (world s) c) →
  Rule.ignore r = true →
  manageClient c s = (Ret false, s).
Proof.
  intros Hin Hname Hign. unfold manageClient.
  assert (Hex : existsb
                  (fun r0 => Rule.matches (getClientClassName (world s) c) r0
                             && Rule.ignore r0) (rules s) = true).
  { apply existsb_exists. exists r. split; [by apply list_elem_of_In|].
    unfold Rule.matches. rewrite Hname, Hign, String.eqb_refl. done. }
  by rewrite Hex.
Qed.

(** C10, amended. With an empty screen list [handleUserInput] leaves the
    whole state (tiles, screens, rules, host, writes) as it was for every
    input, however the call ends; and when a window has the focus it
    returns at once.  Without a focused window the call does not get as
    far as its guard: reading [workspace.activeClient.screen] comes
    first. *)
Theorem handleUserInput_without_screens (input : UserInput) (s : St) :
  screens s = [] →
  snd (handleUserInput input s) = s ∧
  (∀ c, getActiveClient (world s) = Some c →
        handleUserInput input s = (Ret tt, s)).
Proof.
  intros Hs. unfold handleUserInput, bind, call, getActiveScreen.
  destruct (getActiveClient (world s)) as [c|] eqn:Hfocus.
  - (* the search finds nothing and [this.screens[0]] is undefined *)
    rewrite Hs. simpl. split; [done|]. by intros _ _.
  - (* the property read raises before the guard *)
    simpl. split; [done|]. by intros c [=].
Qed.

(** Past its three guards [arrangeClient] is [applyTileGeometry] with
    [isUpdated = false]. *)
Lemma arrangeClient_past_guards (c : Client) (s : St) (i : nat) (t : Tile.t) :
  getTileByClient c s = Some i →
  tiles s !! i = Some t →
  Tile.floating t = false →
  isClientFullScreen (world s) c = false →
  Tile.client t = c ∧ arrangeClient c s = applyTileGeometry i false s.
Proof.
  intros Hfind Ht Hfl Hfs.
  assert (Hc : Tile.client t = c).
  { apply getTileByClient_Some in Hfind as [u (Hu & Hcu & _)]. congruence. }
  split; [done|]. unfold arrangeClient. by rewrite Hfind, Ht, Hfl, Hc, Hfs.
Qed.

(** A reconciliation that is not marked as updated and finds the live
    geometry different from the target. *)
Lemma applyTileGeometry_differs (s : St) (i : nat) (t : Tile.t) :
  tiles s !! i = Some t →
  Rect.eqb (getClientGeometry (world s) (Tile.client t)) (Tile.geometry t) = false →
  let t' := Tile.setArrangeCount (Tile.arrangeCount t + 1)%N t in
  let s1 := setTiles (<[i := t']> (tiles s)) s in
  applyTileGeometry i false s
  = if (5 <? Tile.arrangeCount t + 1)%N then s1
    else writeGeometry t' (Tile.geometry t) s1.
Proof.
  intros Ht Hgeo t' s1. unfold applyTileGeometry. rewrite Ht, Hgeo.
  assert (Halter : updTile i (Tile.setArrangeCount (Tile.arrangeCount t + 1)%N) s = s1).
  { unfold updTile, s1. f_equal. apply list_eq. intros j.
    destruct (decide (i = j)) as [->|Hne].
    - rewrite list_lookup_alter_eq, Ht.
      rewrite list_lookup_insert_eq by (eapply lookup_lt_Some; eauto). done.
    - by rewrite list_lookup_alter_ne, list_lookup_insert_ne. }
  by rewrite Halter.
Qed.

(** C3, amended. For a tracked, non-floating, non-full-screen window whose
    live geometry differs from its tile's target, [arrangeClient] goes
    through the reconciliation with [isUpdated = false]: it adds one to the
    tile's [arrangeCount] (it does not reset it) and then issues the write
    exactly when the new count is at most 5. *)
Theorem arrangeClient_increments_counter (c : Client) (s : St) (i : nat) (t : Tile.t) :
  getTileByClient c s = Some i →
  tiles s !! i = Some t →
  Tile.floating t = false →
  isClientFullScreen (world s) c = false →
  Rect.eqb (getClientGeometry (world s) c) (Tile.geometry t) = false →
  let t' := Tile.setArrangeCount (Tile.arrangeCount t + 1)%N t in
  tiles (arrangeClient c s) = <[i := t']> (tiles s) ∧
  ((Tile.arrangeCount t + 1 <= 5)%N →
     writes (arrangeClient c s) = mkWrite t' (Tile.geometry t) :: writes s) ∧
  ((5 < Tile.arrangeCount t + 1)%N →
     writes (arrangeClient c s) = writes s ∧ world (arrangeClient c s) = world s).
Proof.
  intros Hfind Ht Hfl Hfs Hgeo t'.
  destruct (arrangeClient_past_guards c s i t Hfind Ht Hfl Hfs) as [Hc ->].
  rewrite <- Hc in Hgeo. rewrite (applyTileGeometry_differs s i t Ht Hgeo).
  fold t'.
  destruct (N.ltb_spec 5 (Tile.arrangeCount t + 1)) as [Hgt|Hle].
  - split_and!; [done| lia | done].
  - split_and!; [done| done | lia].
Qed.
End Claims.

(** ** What an arrangement preserves *)

Section ArrangeFacts.
Context {World : Type} `{Host World}.
Local Abbreviation St := (@St World).

Lemma tileKept_refl (t : Tile.t) : tileKept t t.
Proof. unfold tileKept. naive_solver. Qed.

Lemma tileKept_trans (a b c : Tile.t) : tileKept a b → tileKept b c → tileKept a c.
Proof.
  unfold tileKept. intros (?&Hf&?&?&Hg) (?&?&?&?&Hg').
  split_and!; [congruence..|auto|].
  intros Ha. destruct (Hg Ha). rewrite <- Hf in Ha. destruct (Hg' Ha).
  split; congruence.
Qed.

Lemma Forall2_tileKept_refl (ts : list Tile.t) : Forall2 tileKept ts ts.
Proof. induction ts; constructor; auto using tileKept_refl. Qed.

Lemma Forall2_tileKept_trans (a b c : list Tile.t) :
  Forall2 tileKept a b → Forall2 tileKept b c → Forall2 tileKept a c.
Proof.
  intros Hab. revert c. induction Hab; intros c Hbc; inversion Hbc; subst;
    constructor; eauto using tileKept_trans.
Qed.

Lemma tilingWrite_back (a b : list Tile.t) (w : GeomWrite) :
  Forall2 tileKept a b → tilingWrite b w → tilingWrite a w.
Proof.
  intros Hab [Hfl (i & t & Hi & Hk)]. split; [done|].
  destruct (Forall2_lookup_r _ _ _ _ _ Hab Hi) as (t0 & Hi0 & Hk0).
  exists i, t0. eauto using tileKept_trans.
Qed.

Lemma arranged_refl (s : St) : arranged s s.
Proof.
  split; try done; [apply Forall2_tileKept_refl|].
  exists []. by split.
Qed.

Lemma arranged_trans (a b c : St) : arranged a b → arranged b c → arranged a c.
Proof.
  intros [Hs1 Hr1 Hn1 Ht1 (n1 & Hw1 & Hf1)] [Hs2 Hr2 Hn2 Ht2 (n2 & Hw2 & Hf2)].
  split; [congruence..| |].
  - eauto using Forall2_tileKept_trans.
  - exists (n2 ++ n1). split; [by rewrite Hw2, Hw1, app_assoc|].
    apply Forall_app. split; [|done].
    eapply Forall_impl; [exact Hf2|]. intros w. by apply tilingWrite_back.
Qed.

Lemma arranged_setWorld (w : World) (s : St) : arranged s (setWorld w s).
Proof.
  split; try done; [apply Forall2_tileKept_refl|]. exists []. by split.
Qed.

Lemma Forall2_tileKept_alter (f : Tile.t → Tile.t) (i : nat) (ts : list Tile.t) :
  (∀ t, ts !! i = Some t → tileKept t (f t)) →
  Forall2 tileKept ts (alter f i ts).
Proof.
  intros Hf. apply Forall2_same_length_lookup. split; [by rewrite length_alter|].
  intros j x y Hx Hy. destruct (decide (i = j)) as [->|Hne].
  - rewrite list_lookup_alter_eq, Hx in Hy. simplify_eq/=. by apply Hf.
  - rewrite list_lookup_alter_ne in Hy by done. simplify_eq. apply tileKept_refl.
Qed.

Lemma arranged_updTile (f : Tile.t → Tile.t) (i : nat) (s : St) :
  (∀ t, tiles s !! i = Some t → tileKept t (f t)) →
  arranged s (updTile i f s).
Proof.
  intros Hf. split; try done; [by apply Forall2_tileKept_alter|].
  exists []. by split.
Qed.

Lemma arranged_writeGeometry (t : Tile.t) (r : Rect.t) (s : St) :
  tilingWrite (tiles s) (mkWrite t r) →
  arranged s (writeGeometry t r s).
Proof.
  intros Hw. split; try done; [apply Forall2_tileKept_refl|].
  exists [mkWrite t r]. split; [done|]. by constructor.
Qed.

Lemma arranged_floatingAt (i : nat) (s s' : St) :
  arranged s s' → floatingAt i s' = floatingAt i s.
Proof.
  intros [_ _ _ Ht _]. unfold floatingAt.
  destruct (tiles s !! i) as [t|] eqn:Hi.
  - destruct (Forall2_lookup_l _ _ _ _ _ Ht Hi) as (t' & -> & Hk).
    by destruct Hk as (_ & -> & _).
  - apply Forall2_length in Ht. apply lookup_ge_None in Hi.
    rewrite (proj2 (lookup_ge_None (tiles s') i)); [done|lia].
Qed.

Lemma arranged_isTileVisible (i : nat) (screen : option Screen.t) (s : St) :
  arranged s (snd (isTileVisible i screen s)).
Proof.
  assert (Hmark : arranged s (updTile i (Tile.setIsError true) s)).
  { apply arranged_updTile. intros t _. unfold tileKept. naive_solver. }
  unfold isTileVisible. destruct (tiles s !! i) as [t|]; [|apply arranged_refl].
  destruct screen as [sc|]; [|done].
  destruct (isClientVisible _ _ _); [apply arranged_refl|done].
Qed.

Lemma arranged_notFullScreen (i : nat) (s : St) :
  arranged s (snd (notFullScreen i s)).
Proof.
  unfold notFullScreen. destruct (tiles s !! i) as [t|]; [|apply arranged_refl].
  destruct (isClientFullScreen _ _); [apply arranged_setWorld|apply arranged_refl].
Qed.

Lemma arranged_filterSt (p : nat → St → bool * St) (xs : list nat) (s : St) :
  (∀ i a, arranged a (snd (p i a))) →
  arranged s (snd (filterSt p xs s)).
Proof.
  intros Hp. revert s. induction xs as [|i xs IH]; intros s; [apply arranged_refl|].
  simpl. specialize (Hp i s). destruct (p i s) as [b s1]. simpl in Hp.
  specialize (IH s1). destruct (filterSt p xs s1) as [ys s2]. simpl in *.
  eauto using arranged_trans.
Qed.

(** A loop whose body is safe on the indices that satisfy [P], where [P]
    is not disturbed by an arrangement. *)
Lemma arranged_foldl {A} (f : St → A → St) (P : A → St → Prop) (xs : list A) (s : St) :
  (∀ x a, P x a → arranged a (f a x)) →
  (∀ x a a', arranged a a' → P x a → P x a') →
  Forall (fun x => P x s) xs →
  arranged s (foldl f s xs).
Proof.
  intros Hf Hstable. revert s. induction xs as [|x xs IH]; intros s Hall;
    [apply arranged_refl|].
  inversion Hall as [|? ? Hx Hxs]; subst. simpl.
  pose proof (Hf x s Hx) as Hstep.
  eapply arranged_trans; [exact Hstep|]. apply IH.
  eapply Forall_impl; [exact Hxs|]. intros y Hy. eauto.
Qed.

Lemma arranged_applyTileGeometry (i : nat) (isUpdated : bool) (s : St) :
  floatingAt i s = false →
  arranged s (applyTileGeometry i isUpdated s).
Proof.
  intros Hfl. unfold applyTileGeometry, floatingAt in *.
  destruct (tiles s !! i) as [t|] eqn:Hi; [|apply arranged_refl].
  assert (Hcount : ∀ n, arranged s (updTile i (Tile.setArrangeCount n) s)).
  { intros n. apply arranged_updTile. intros u Hu. simplify_eq.
    unfold tileKept. simpl. split_and!; [done..|]. congruence. }
  destruct (Rect.eqb _ _); [done|].
  set (n := if isUpdated then 0%N else (Tile.arrangeCount t + 1)%N).
  destruct (5 <? n)%N; [done|].
  eapply arranged_trans; [apply (Hcount n)|].
  apply arranged_writeGeometry. split; [done|].
  exists i, (Tile.setArrangeCount n t). split.
  - unfold updTile. simpl. by rewrite list_lookup_alter_eq, Hi.
  - apply tileKept_refl.
Qed.

Lemma arranged_keepBelowAt (i : nat) (s : St) : arranged s (keepBelowAt i s).
Proof.
  unfold keepBelowAt. destruct (tiles s !! i);
    [apply arranged_setWorld|apply arranged_refl].
Qed.

Lemma arranged_keepAboveAt (i : nat) (s : St) : arranged s (keepAboveAt i s).
Proof.
  unfold keepAboveAt. destruct (tiles s !! i);
    [apply arranged_setWorld|apply arranged_refl].
Qed.

Lemma arranged_applyLayout (l : Layout) (tileables : list nat) (area : Rect.t) (s : St) :
  Forall (fun i => floatingAt i s = false) tileables →
  arranged s (applyLayout l tileables area s).
Proof.
  intros Hall. unfold applyLayout.
  destruct (layoutApply l _ area (world s)) as [rs w1].
  eapply arranged_trans; [apply (arranged_setWorld w1)|].
  apply (arranged_foldl _ (fun ir a => floatingAt (fst ir) a = false)).
  - intros [i r] a Hfl. simpl in *. apply arranged_updTile. intros t Ht.
    unfold floatingAt in Hfl. rewrite Ht in Hfl.
    unfold tileKept. simpl. split_and!; [done..|]. congruence.
  - intros ir a a' Haa Hfl. by rewrite (arranged_floatingAt _ _ _ Haa).
  - clear -Hall. revert rs. induction Hall as [|i rest Hi Hrest IH]; intros [|r rs];
      simpl; constructor; auto.
Qed.

Lemma arranged_arrangeScreen (screen : Screen.t) (s : St) :
  arranged s (snd (arrangeScreen screen s)).
Proof.
  unfold arrangeScreen.
  pose proof (arranged_filterSt (fun i => isTileVisible i (Some screen))
                (allTiles s) s (fun i a => arranged_isTileVisible i _ a)) as H1.
  fold (getVisibleTiles (Some screen) s) in H1.
  destruct (getVisibleTiles (Some screen) s) as [vis s1]. simpl in H1.
  pose proof (arranged_filterSt notFullScreen vis s1 arranged_notFullScreen) as H2.
  destruct (filterSt notFullScreen vis s1) as [visibles s2]. simpl in H2.
  assert (H12 : arranged s s2) by eauto using arranged_trans.
  destruct (Screen.layout screen) as [| |l]; simpl; [apply arranged_refl|done|].
  set (tileables := filter (fun i => floatingAt i s2 = false) visibles).
  assert (Htl : Forall (fun i => floatingAt i s2 = false) tileables).
  { apply Forall_forall. intros i Hi. by apply list_elem_of_filter in Hi as [? _]. }
  pose proof (arranged_applyLayout l tileables
                (getWorkingArea (world s) (Screen.id screen)) s2 Htl) as H3.
  set (s3 := applyLayout l tileables _ s2) in *.
  assert (H4 : arranged s3
                 (foldl (fun acc i => keepBelowAt i (applyTileGeometry i true acc))
                        s3 tileables)).
  { apply (arranged_foldl _ (fun i a => floatingAt i a = false)).
    - intros i a Hfl. eapply arranged_trans;
        [by apply arranged_applyTileGeometry|apply arranged_keepBelowAt].
    - intros i a a' Haa Hfl. by rewrite (arranged_floatingAt _ _ _ Haa).
    - eapply Forall_impl; [exact Htl|]. intros i Hi. simpl in Hi.
      by rewrite (arranged_floatingAt _ _ _ H3). }
  set (s4 := foldl _ s3 tileables) in *.
  eapply arranged_trans; [exact H12|]. eapply arranged_trans; [exact H3|].
  eapply arranged_trans; [exact H4|].
  apply (arranged_foldl _ (fun _ _ => True)); [|done|by apply Forall_true].
  intros i a _. apply arranged_keepAboveAt.
Qed.

Lemma arranged_forEachM (body : Screen.t → M unit) (xs : list Screen.t) (s : St) :
  (∀ x a, arranged a (snd (body x a))) →
  arranged s (snd (forEachM body xs s)).
Proof.
  intros Hb. revert s. induction xs as [|x xs IH]; intros s; [apply arranged_refl|].
  simpl. unfold bind. specialize (Hb x s).
  destruct (body x s) as [[[]| |] s1]; simpl in *; [|done..].
  eauto using arranged_trans.
Qed.

Lemma arranged_arrange (s : St) : arranged s (snd (arrange s)).
Proof. apply arranged_forEachM. apply arranged_arrangeScreen. Qed.

Lemma arranged_arrangeClient (c : Client) (s : St) : arranged s (arrangeClient c s).
Proof.
  unfold arrangeClient. destruct (getTileByClient c s) as [i|]; [|apply arranged_refl].
  destruct (tiles s !! i) as [t|] eqn:Hi; [|apply arranged_refl].
  destruct (Tile.floating t) eqn:Hfl; [apply arranged_refl|].
  destruct (isClientFullScreen _ _); [apply arranged_refl|].
  apply arranged_applyTileGeometry. unfold floatingAt. by rewrite Hi.
Qed.

Lemma arranged_clients (s s' : St) : arranged s s' → clients s' = clients s.
Proof.
  intros [_ _ _ Ht _]. unfold clients.
  induction Ht as [|t t' ts ts' Hk _ IH]; [done|].
  simpl. destruct Hk as (-> & _). by rewrite IH.
Qed.
End ArrangeFacts.

(** ** Floating tiles and tile uniqueness *)

Section LifecycleClaims.
Context {World : Type} `{Host World}.
Local Abbreviation St := (@St World).

Lemma arranged_new_writes (s s' : St) :
  arranged s s' →
  ∃ new, writes s' = new ++ writes s ∧
         ∀ w, w ∈ new →
              Tile.floating (wtile w) = false ∧
              ∃ i t, tiles s !! i = Some t ∧
                     Tile.client t = Tile.client (wtile w) ∧
                     Tile.floating t = false.
Proof.
  intros [_ _ _ _ (new & Hw & Hall)]. exists new. split; [done|].
  intros w Hin. rewrite Forall_forall in Hall.
  destruct (Hall w Hin) as [Hfl (i & t & Hi & Hk)]. split; [done|].
  exists i, t. destruct Hk as (Hc & Hf & _). split_and!; congruence.
Qed.

Lemma arranged_floating_tile (s s' : St) (i : nat) (t : Tile.t) :
  arranged s s' → tiles s !! i = Some t → Tile.floating t = true →
  ∃ t', tiles s' !! i = Some t' ∧ Tile.floating t' = true ∧
        Tile.geometry t' = Tile.geometry t ∧
        Tile.arrangeCount t' = Tile.arrangeCount t.
Proof.
  intros [_ _ _ Ht _] Hi Hfl.
  destruct (Forall2_lookup_l _ _ _ _ _ Ht Hi) as (t' & Hi' & Hk).
  exists t'. destruct Hk as (_ & Hf & _ & _ & Hg). destruct (Hg Hfl).
  split_and!; congruence.
Qed.

(** C7. The tiling path never writes the geometry of a floating tile.
    Every geometry write issued during [arrange] is made for a tile whose
    [floating] flag is false, and that tile is a tile of the list; a
    floating tile comes out of [arrange] still floating, with the target
    geometry and retry counter it had (no layout, no reconciliation);
    [arrangeClient] on a window whose tile is floating changes nothing at
    all, and whatever [arrangeClient] writes is for a non-floating tile. *)
Theorem tiling_path_spares_floating_tiles (s : St) :
  (∃ new, writes (snd (arrange s)) = new ++ writes s ∧
          ∀ w, w ∈ new →
               Tile.floating (wtile w) = false ∧
               ∃ i t, tiles s !! i = Some t ∧
                      Tile.client t = Tile.client (wtile w) ∧
                      Tile.floating t = false) ∧
  (∀ i t, tiles s !! i = Some t → Tile.floating t = true →
          ∃ t', tiles (snd (arrange s)) !! i = Some t' ∧
                Tile.floating t' = true ∧
                Tile.geometry t' = Tile.geometry t ∧
                Tile.arrangeCount t' = Tile.arrangeCount t) ∧
  (∀ c i t, getTileByClient c s = Some i → tiles s !! i = Some t →
            Tile.floating t = true → arrangeClient c s = s) ∧
  (∀ c, ∃ new, writes (arrangeClient c s) = new ++ writes s ∧
               ∀ w, w ∈ new →
                    Tile.floating (wtile w) = false ∧
                    ∃ i t, tiles s !! i = Some t ∧
                           Tile.client t = Tile.client (wtile w) ∧
                           Tile.floating t = false).
Proof.
  split_and!.
  - apply arranged_new_writes, arranged_arrange.
  - intros i t. apply arranged_floating_tile, arranged_arrange.
  - intros c i t Hfind Hi Hfl. unfold arrangeClient. by rewrite Hfind, Hi, Hfl.
  - intros c. apply arranged_new_writes, arranged_arrangeClient.
Qed.

Lemma setFloat_client (t : Tile.t) (v : FloatValue) (g : option Rect.t) (s : St) :
  Tile.client (fst (setFloat t v g s)) = Tile.client t.
Proof.
  unfold setFloat. destruct v as [b|].
  - destruct (Bool.eqb _ _); [done|]. by destruct b.
  - by destruct (negb _).
Qed.

Lemma setFloat_tiles (t : Tile.t) (v : FloatValue) (g : option Rect.t) (s : St) :
  tiles (snd (setFloat t v g s)) = tiles s.
Proof.
  unfold setFloat. destruct v as [b|].
  - destruct (Bool.eqb _ _); [done|]. by destruct b.
  - by destruct (negb _).
Qed.

Lemma snd_bind_ret {A B} (m : M A) (b : B) (s : St) :
  snd (bind m (fun _ => ret b) s) = snd (m s).
Proof. unfold bind, ret. by destruct (m s) as [[?| |] ?]. Qed.

(** The windows of the tile list after [manageClient]: the new window at
    the end, unless an ignore rule rejects it. *)
Lemma manageClient_clients (c : Client) (s : St) :
  clients (snd (manageClient c s)) = clients s ∨
  clients (snd (manageClient c s)) = clients s ++ [c].
Proof.
  unfold manageClient. destruct (existsb _ _); [by left|]. right.
  destruct (existsb _ _).
  - pose proof (setFloat_client (Tile.new c (getClientGeometry (world s) c))
                  (FBool true) None s) as Hc.
    pose proof (setFloat_tiles (Tile.new c (getClientGeometry (world s) c))
                  (FBool true) None s) as Ht.
    destruct (setFloat _ _ _ s) as [t1 s1]. simpl in *.
    rewrite snd_bind_ret, (arranged_clients _ _ (arranged_arrange _)).
    unfold clients. simpl. rewrite Ht, map_app. simpl. by rewrite Hc.
  - rewrite snd_bind_ret, (arranged_clients _ _ (arranged_arrange _)).
    unfold clients. simpl. by rewrite map_app.
Qed.

Lemma unmanageClient_clients (c : Client) (s : St) :
  clients (snd (unmanageClient c s))
  = map Tile.client
        (filter (fun t => Tile.client t ≠ c ∧ Tile.isError t = false) (tiles s)).
Proof.
  unfold unmanageClient. by rewrite (arranged_clients _ _ (arranged_arrange _)).
Qed.

Lemma NoDup_clients_filter (P : Tile.t → Prop) `{∀ t, Decision (P t)}
    (ts : list Tile.t) :
  NoDup (map Tile.client ts) → NoDup (map Tile.client (filter P ts)).
Proof.
  induction ts as [|t ts IH]; [done|]. simpl. intros Hnd.
  apply NoDup_cons in Hnd as [Hnot Hnd]. rewrite filter_cons.
  destruct (decide (P t)); [|auto]. simpl. apply NoDup_cons. split; [|auto].
  intros Hin. apply Hnot.
  apply list_elem_of_fmap in Hin as (u & Hu & Hin).
  apply list_elem_of_filter in Hin as [_ Hin].
  apply list_elem_of_fmap. eauto.
Qed.

Lemma step_keeps_NoDup (ev : Event) (s : St) :
  NoDup (clients s) →
  match ev with Manage c => c ∉ clients s | _ => True end →
  NoDup (clients (step ev s)).
Proof.
  intros Hnd Hfresh. destruct ev as [c|c|w]; simpl.
  - destruct (manageClient_clients c s) as [-> | ->]; [done|].
    apply NoDup_app. split_and!; [done| |apply NoDup_singleton].
    intros x Hx Hin. apply list_elem_of_singleton in Hin. by subst.
  - rewrite unmanageClient_clients. by apply NoDup_clients_filter.
  - done.
Qed.

(** C1, amended. Along every sequence of manage and unmanage calls (and
    changes of the host between them) in which [manageClient] is never
    called for a window that has a tile at that moment, a tile list
    without two tiles of one window stays so; this holds for any rules
    and any host, in particular from the empty engine. *)
Theorem tiles_unique_when_manage_is_fresh (evs : list Event) (s : St) :
  NoDup (clients s) →
  managesUntracked evs s →
  NoDup (clients (run evs s)).
Proof.
  revert s. induction evs as [|ev evs IH]; intros s Hnd Hok; [done|].
  destruct Hok as [Hev Hrest]. simpl. apply IH; [|done].
  by apply step_keeps_NoDup.
Qed.
End LifecycleClaims.

(** ** Visibility checks *)

Section VisibilityFacts.
Context {World : Type} `{Host World}.
Local Abbreviation St := (@St World).

Lemma setTiles_same (s : St) : setTiles (tiles s) s = s.
Proof. by destruct s. Qed.

Lemma markFault_client (w : World) (screen : option Screen.t) (t : Tile.t) :
  Tile.client (markFault w screen t) = Tile.client t.
Proof. unfold markFault. by destruct (checkVisible w screen t). Qed.

Lemma visibleOn_markFault (w : World) (screen screen' : option Screen.t) (t : Tile.t) :
  visibleOn w screen (markFault w screen' t) = visibleOn w screen t.
Proof.
  unfold visibleOn, checkVisible. rewrite markFault_client. done.
Qed.

(** One check: the answer, and the tile marked if the check faulted. *)
Lemma isTileVisible_eq (i : nat) (screen : option Screen.t) (s : St) (t : Tile.t) :
  tiles s !! i = Some t →
  isTileVisible i screen s
  = (visibleOn (world s) screen t, updTile i (markFault (world s) screen) s).
Proof.
  intros Hi. unfold isTileVisible, visibleOn, markFault, checkVisible, updTile.
  rewrite Hi. destruct screen as [sc|]; [|done].
  destruct (isClientVisible (world s) (Tile.client t) (Screen.id sc)) as [b|] eqn:Hv.
  - f_equal; [by destruct b|].
    rewrite (list_alter_ext _ (fun x => x) _ (tiles s) i); [| |done].
    + by rewrite list_alter_id, setTiles_same.
    + intros x Hx. simplify_eq. by rewrite Hv.
  - f_equal. f_equal. apply list_alter_ext; [|done].
    intros x Hx. simplify_eq. by rewrite Hv.
Qed.

Lemma visible_range (s : St) (screen : option Screen.t) (n k : nat) :
  (k + n)%nat = length (tiles s) →
  filterSt (fun i => isTileVisible i screen) (seq k n)
    (setTiles (map (markFault (world s) screen) (take k (tiles s))
               ++ drop k (tiles s)) s)
  = (filter (fun i => visibleAt (world s) screen (tiles s) i = true) (seq k n),
     setTiles (map (markFault (world s) screen) (tiles s)) s).
Proof.
  revert k. induction n as [|n IH]; intros k Hlen.
  - simpl. rewrite take_ge, drop_ge by lia. by rewrite app_nil_r.
  - destruct (lookup_lt_is_Some_2 (tiles s) k) as [t Ht]; [lia|].
    cbn [seq filterSt].
    set (mid := setTiles _ s).
    assert (Hmid : tiles mid !! k = Some t).
    { unfold mid. cbn [tiles setTiles]. rewrite lookup_app_r;
        rewrite length_map, length_take; [|lia].
      replace (k - k `min` length (tiles s))%nat with 0%nat by lia.
      by rewrite lookup_drop, Nat.add_0_r. }
    rewrite (isTileVisible_eq k screen mid t Hmid).
    assert (Hnext : updTile k (markFault (world mid) screen) mid
                    = setTiles (map (markFault (world s) screen) (take (S k) (tiles s))
                                ++ drop (S k) (tiles s)) s).
    { unfold mid, updTile, setTiles. cbn. f_equal.
      rewrite (take_S_r _ _ _ Ht), map_app. cbn.
      rewrite <- app_assoc. cbn.
      rewrite (drop_S _ _ _ Ht).
      replace k with (length (map (markFault (world s) screen) (take k (tiles s))) + 0)%nat
        at 1 by (rewrite length_map, length_take; lia).
      by rewrite alter_app_r. }
    rewrite Hnext. rewrite IH by lia.
    assert (Hva : visibleAt (world s) screen (tiles s) k = visibleOn (world s) screen t)
      by (unfold visibleAt; by rewrite Ht).
    rewrite filter_cons, Hva. change (world mid) with (world s).
    destruct (visibleOn (world s) screen t); by case_decide.
Qed.

(** [getVisibleTiles]: the slots whose check answers true, and every tile
    whose check faulted marked. *)
Lemma getVisibleTiles_eq (screen : option Screen.t) (s : St) :
  getVisibleTiles screen s
  = (filter (fun i => visibleAt (world s) screen (tiles s) i = true) (allTiles s),
     setTiles (map (markFault (world s) screen) (tiles s)) s).
Proof.
  unfold getVisibleTiles, allTiles.
  rewrite <- (visible_range s screen (length (tiles s)) 0) by done.
  rewrite take_0, drop_0. cbn [map app]. by rewrite setTiles_same.
Qed.

Lemma visible_slots_clients (w : World) (screen : option Screen.t) (f : Tile.t → Client)
    (post pre : list Tile.t) :
  omap (fun i => f <$> (pre ++ post) !! i)
       (filter (fun i => visibleAt w screen (pre ++ post) i = true)
               (seq (length pre) (length post)))
  = map f (filter (fun t => visibleOn w screen t = true) post).
Proof.
  revert pre. induction post as [|t post IH]; intros pre; [done|].
  cbn [length seq]. rewrite !filter_cons.
  assert (Ht : (pre ++ t :: post) !! length pre = Some t)
    by (by rewrite list_lookup_middle).
  assert (Hva : visibleAt w screen (pre ++ t :: post) (length pre) = visibleOn w screen t)
    by (unfold visibleAt; by rewrite Ht).
  rewrite Hva.
  specialize (IH (pre ++ [t])). rewrite <- app_assoc in IH. cbn in IH.
  rewrite length_app in IH. cbn in IH.
  replace (length pre + 1)%nat with (S (length pre)) in IH by lia.
  destruct (decide (visibleOn w screen t = true)) as [Hv|Hv].
  - cbn. rewrite Ht. cbn. f_equal. exact IH.
  - exact IH.
Qed.

Lemma visibleClients_eq (screen : option Screen.t) (s : St) :
  visibleClients screen s
  = map Tile.client (filter (fun t => visibleOn (world s) screen t = true) (tiles s)).
Proof.
  unfold visibleClients. rewrite getVisibleTiles_eq. cbn [fst].
  exact (visible_slots_clients (world s) screen Tile.client (tiles s) []).
Qed.
End VisibilityFacts.

(** ** The error flag and the loop guard *)

Section GuardClaims.
Context {World : Type} `{Host World}.
Local Abbreviation St := (@St World).

(** C4, amended. A tile whose visibility check faults is left out of the
    visible set being computed and gets its [isError] flag set; the flag
    is never cleared by an arrange pass, and [unmanageClient] drops every
    flagged tile.  The flag itself is not consulted by the visibility
    check: a tile, flagged or not, is in the visible set of a screen
    exactly when the driver's check for it answers true. *)
Theorem error_flag_marks_but_does_not_hide (s : St) (sc : Screen.t) :
  (∀ i, i ∈ fst (getVisibleTiles (Some sc) s) ↔
        ∃ t, tiles s !! i = Some t ∧
             isClientVisible (world s) (Tile.client t) (Screen.id sc) = Some true) ∧
  (∀ i t, tiles s !! i = Some t →
          isClientVisible (world s) (Tile.client t) (Screen.id sc) = None →
          (i ∉ fst (getVisibleTiles (Some sc) s)) ∧
          ∃ t', tiles (snd (getVisibleTiles (Some sc) s)) !! i = Some t' ∧
                Tile.isError t' = true) ∧
  (∀ i t, tiles s !! i = Some t → Tile.isError t = true →
          ∃ t', tiles (snd (arrange s)) !! i = Some t' ∧
                Tile.client t' = Tile.client t ∧ Tile.isError t' = true) ∧
  (∀ c, clients (snd (unmanageClient c s)) = map Tile.client (keptBy c (tiles s)) ∧
        Forall (fun t => Tile.isError t = false) (keptBy c (tiles s))).
Proof.
  assert (Hvis : ∀ i, i ∈ fst (getVisibleTiles (Some sc) s) ↔
            ∃ t, tiles s !! i = Some t ∧
                 isClientVisible (world s) (Tile.client t) (Screen.id sc) = Some true).
  { intros i. rewrite getVisibleTiles_eq. cbn [fst].
    rewrite list_elem_of_filter. unfold allTiles, visibleAt, visibleOn, checkVisible.
    rewrite elem_of_seq. split.
    - intros [Hv _]. destruct (tiles s !! i) as [t|]; [|done]. exists t.
      split; [done|]. by destruct (isClientVisible _ _ _) as [[]|].
    - intros (t & Hi & Hv). rewrite Hi, Hv. split; [done|].
      apply lookup_lt_Some in Hi. lia. }
  split_and!.
  - exact Hvis.
  - intros i t Hi Hfault. split.
    + intros Hin. apply Hvis in Hin as (u & Hu & Hv). congruence.
    + rewrite getVisibleTiles_eq. cbn [snd tiles setTiles].
      exists (Tile.setIsError true t). split; [|done].
      change (map ?f ?l) with (f <$> l). rewrite list_lookup_fmap, Hi. cbn.
      unfold markFault, checkVisible. by rewrite Hfault.
  - intros i t Hi Herr.
    destruct (arranged_arrange s) as [_ _ _ Ht _].
    destruct (Forall2_lookup_l _ _ _ _ _ Ht Hi) as (t' & Hi' & Hk).
    exists t'. destruct Hk as (Hc & _ & _ & He & _). auto.
  - intros c. split; [apply unmanageClient_clients|].
    apply Forall_forall. intros t Hin. unfold keptBy in Hin.
    by apply list_elem_of_filter in Hin as [[_ ?] _].
Qed.

Lemma arrangeClient_noop (c : Client) (s : St) :
  (∀ i t, getTileByClient c s = Some i → tiles s !! i = Some t →
          Tile.floating t = true ∨ isClientFullScreen (world s) c = true) →
  arrangeClient c s = s.
Proof.
  intros Hg. unfold arrangeClient.
  destruct (getTileByClient c s) as [i|] eqn:Hfind; [|done].
  destruct (tiles s !! i) as [t|] eqn:Hi; [|done].
  assert (Hc : Tile.client t = c).
  { apply getTileByClient_Some in Hfind as (u & Hu & Hcu & _). congruence. }
  destruct (Hg i t eq_refl Hi) as [-> | Hfs]; [done|].
  rewrite Hc, Hfs. by destruct (Tile.floating t).
Qed.

Lemma arrangeClientIn_snoc (c : Client) (ws : list World) (w : World) (s : St) :
  arrangeClientIn c (ws ++ [w]) s
  = arrangeClient c (setWorld w (arrangeClientIn c ws s)).
Proof. unfold arrangeClientIn. by rewrite foldl_app. Qed.

(** A window without a tile, or with a floating tile: the invocations
    leave tiles and writes alone. *)
Lemma arrangeClientIn_idle (c : Client) (ws : list World) (s : St) :
  (∀ i t, getTileByClient c s = Some i → tiles s !! i = Some t →
          Tile.floating t = true) →
  tiles (arrangeClientIn c ws s) = tiles s ∧
  writes (arrangeClientIn c ws s) = writes s.
Proof.
  intros Hidle. induction ws as [|w ws IH] using rev_ind; [done|].
  rewrite arrangeClientIn_snoc. destruct IH as [IHt IHw].
  rewrite arrangeClient_noop; [by split|].
  intros i t Hfind Hi. left.
  unfold getTileByClient in Hfind. cbn [tiles setWorld] in Hfind, Hi.
  rewrite IHt in Hfind, Hi. by apply (Hidle i t).
Qed.

(** A window with a non-floating tile whose target the host never
    matches: each invocation past the full-screen guard adds one to the
    retry counter, and nothing else in the tile list changes. *)
Lemma arrangeClientIn_counts (c : Client) (ws : list World) (s : St)
    (i : nat) (t : Tile.t) :
  getTileByClient c s = Some i →
  tiles s !! i = Some t →
  Tile.floating t = false →
  Forall (fun w => Rect.eqb (getClientGeometry w c) (Tile.geometry t) = false) ws →
  tiles (arrangeClientIn c ws s)
  = <[i := Tile.setArrangeCount
             (Tile.arrangeCount t + N.of_nat (length (pastFullScreenGuard c ws)))%N t]>
      (tiles s).
Proof.
  intros Hfind Hi Hfl Hall. induction ws as [|w ws IH] using rev_ind.
  - simpl. rewrite N.add_0_r. rewrite list_insert_id; [done|].
    rewrite Hi. by destruct t.
  - apply Forall_app in Hall as [Hall Hw]. rewrite Forall_singleton in Hw.
    specialize (IH Hall). rewrite arrangeClientIn_snoc.
    set (sn := arrangeClientIn c ws s) in *.
    set (m := length (pastFullScreenGuard c ws)) in *.
    set (tn := Tile.setArrangeCount (Tile.arrangeCount t + N.of_nat m)%N t) in *.
    assert (Hlt : (i < length (tiles s))%nat) by (eapply lookup_lt_Some; eauto).
    assert (Hin : tiles (setWorld w sn) !! i = Some tn).
    { cbn [tiles setWorld]. rewrite IH. by apply list_lookup_insert_eq. }
    assert (Hfn : getTileByClient c (setWorld w sn) = Some i).
    { apply getTileByClient_Some. exists tn. split; [done|].
      apply getTileByClient_Some in Hfind as (u & Hu & Hcu & Hbefore).
      simplify_eq. split; [done|]. intros j v Hj Hji.
      cbn [tiles setWorld] in Hj. rewrite IH in Hj.
      rewrite list_lookup_insert_ne in Hj by lia. eauto. }
    unfold pastFullScreenGuard. rewrite filter_app, length_app. fold (pastFullScreenGuard c ws).
    fold m. rewrite filter_cons, filter_nil.
    destruct (decide (isClientFullScreen w c = false)) as [Hfs|Hfs].
    + destruct (arrangeClient_past_guards c (setWorld w sn) i tn Hfn Hin Hfl Hfs)
        as [Hcn ->].
      rewrite (applyTileGeometry_differs (setWorld w sn) i tn Hin)
        by (by rewrite Hcn).
      assert (Ht : ∀ a : St, tiles (if (5 <? Tile.arrangeCount tn + 1)%N
                                      then a
                                      else writeGeometry
                                             (Tile.setArrangeCount
                                                (Tile.arrangeCount tn + 1)%N tn)
                                             (Tile.geometry tn) a) = tiles a)
        by (intros; by destruct (_ <? _)%N).
      rewrite Ht. cbn [tiles setTiles setWorld]. rewrite IH.
      rewrite list_insert_insert_eq. f_equal. unfold tn. cbn.
      unfold Tile.setArrangeCount. cbn. f_equal. lia.
    + rewrite arrangeClient_noop.
      * cbn [tiles setWorld length]. rewrite IH. fold tn. f_equal.
        unfold tn. f_equal. lia.
      * intros. right. cbn [world setWorld]. by destruct (isClientFullScreen w c).
Qed.

(** C2, amended. If the host never reports the tile's target geometry,
    then once five invocations of [arrangeClient] for the window have got
    past the full-screen guard, a further invocation issues no geometry
    write, and the retry counter of a non-floating tile is then above the
    threshold 5.  (An invocation made while the window is full-screen
    returns before the guard and is not counted.) *)
Theorem loop_guard_stops_writes (c : Client) (s : St) (ws : list World) (w : World) :
  (∀ i t, getTileByClient c s = Some i → tiles s !! i = Some t →
          Forall (fun w' => Rect.eqb (getClientGeometry w' c) (Tile.geometry t) = false)
                 (ws ++ [w])) →
  (5 <= length (pastFullScreenGuard c ws))%nat →
  writes (arrangeClientIn c (ws ++ [w]) s) = writes (arrangeClientIn c ws s) ∧
  (∀ i t, getTileByClient c s = Some i → tiles s !! i = Some t →
          Tile.floating t = false → isClientFullScreen w c = false →
          ∃ t', tiles (arrangeClientIn c (ws ++ [w]) s) !! i = Some t' ∧
                (5 < Tile.arrangeCount t')%N).
Proof.
  intros Hnever Hfive.
  destruct (getTileByClient c s) as [i|] eqn:Hfind.
  2:{ split; [|done].
      destruct (arrangeClientIn_idle c (ws ++ [w]) s) as [_ ->]; [by rewrite Hfind|].
      destruct (arrangeClientIn_idle c ws s) as [_ ->]; [by rewrite Hfind|]. done. }
  pose proof Hfind as Hf. apply getTileByClient_Some in Hf as (t & Hi & Hc & _).
  destruct (Tile.floating t) eqn:Hfl.
  { split.
    - destruct (arrangeClientIn_idle c (ws ++ [w]) s) as [_ ->];
        [rewrite Hfind; intros; simplify_eq; done|].
      destruct (arrangeClientIn_idle c ws s) as [_ ->];
        [rewrite Hfind; intros; simplify_eq; done|]. done.
    - intros j u ? ? ?. simplify_eq. congruence. }
  specialize (Hnever i t eq_refl Hi).
  pose proof (arrangeClientIn_counts c (ws ++ [w]) s i t Hfind Hi Hfl Hnever) as Hall.
  apply Forall_app in Hnever as [Hws Hw]. rewrite Forall_singleton in Hw.
  pose proof (arrangeClientIn_counts c ws s i t Hfind Hi Hfl Hws) as Hn.
  assert (Hlt : (i < length (tiles s))%nat) by (eapply lookup_lt_Some; eauto).
  split.
  - rewrite arrangeClientIn_snoc.
    set (sn := arrangeClientIn c ws s) in *.
    set (m := length (pastFullScreenGuard c ws)) in *.
    set (tn := Tile.setArrangeCount (Tile.arrangeCount t + N.of_nat m)%N t) in *.
    assert (Hin : tiles (setWorld w sn) !! i = Some tn).
    { cbn [tiles setWorld]. rewrite Hn. by apply list_lookup_insert_eq. }
    assert (Hfn : getTileByClient c (setWorld w sn) = Some i).
    { apply getTileByClient_Some. exists tn. split; [done|].
      apply getTileByClient_Some in Hfind as (u & Hu & Hcu & Hbefore).
      simplify_eq. split; [done|]. intros j v Hj Hji.
      cbn [tiles setWorld] in Hj. rewrite Hn in Hj.
      rewrite list_lookup_insert_ne in Hj by lia. eauto. }
    destruct (isClientFullScreen w c) eqn:Hfs.
    + rewrite arrangeClient_noop; [done|]. intros. by right.
    + destruct (arrangeClient_past_guards c (setWorld w sn) i tn Hfn Hin Hfl Hfs)
        as [Hcn ->].
      rewrite (applyTileGeometry_differs (setWorld w sn) i tn Hin)
        by (by rewrite Hcn).
      destruct (N.ltb_spec 5 (Tile.arrangeCount tn + 1)) as [_|Hle]; [done|].
      unfold tn in Hle. cbn in Hle. lia.
  - intros j u Hj Hu _ Hfs. injection Hj as <-. rewrite Hi in Hu.
    injection Hu as <-. rewrite Hall.
    eexists. split; [by apply list_lookup_insert_eq|]. cbn.
    unfold pastFullScreenGuard. rewrite filter_app, length_app.
    fold (pastFullScreenGuard c ws). rewrite filter_cons, filter_nil.
    destruct (decide (isClientFullScreen w c = false)); [|done]. cbn. lia.
Qed.
End GuardClaims.

(** ** Moving the focused tile *)

Section MoveClaims.
Context {World : Type} `{Host World}.
Local Abbreviation St := (@St World).

Lemma markFault_visible (w : World) (screen : option Screen.t) (t : Tile.t) :
  visibleOn w screen t = true → markFault w screen t = t.
Proof.
  unfold visibleOn, markFault. by destruct (checkVisible w screen t) as [[]|].
Qed.

Lemma updTile_fixed (i : nat) (f : Tile.t → Tile.t) (s : St) :
  (∀ t, tiles s !! i = Some t → f t = t) → updTile i f s = s.
Proof.
  intros Hf. unfold updTile.
  rewrite (list_alter_ext f (fun x => x) (tiles s) (tiles s) i); [|done..].
  by rewrite list_alter_id, setTiles_same.
Qed.

Lemma foldl_updTile (f : Tile.t → Tile.t) (visit : list nat) (s : St) :
  foldl (fun a i => updTile i f a) s visit
  = setTiles (foldl (fun ts i => alter f i ts) (tiles s) visit) s.
Proof.
  revert s. induction visit as [|i visit IH]; intros s; simpl.
  - by rewrite setTiles_same.
  - rewrite IH. by destruct s.
Qed.

(** The walk of [moveTile] over slots that fail the check until the first
    slot that passes it: the failing slots are marked where the check
    faulted, and the focused tile changes place with the passing one. *)
Lemma moveTileLoop_first_visible (skipped : list nat) (j : nat) (rest : list nat)
    (screen : option Screen.t) (dir : Z) (idx : nat) (step : Z) (s : St) :
  step - dir = 0 →
  Forall (fun i => ∃ t, tiles s !! i = Some t ∧ visibleOn (world s) screen t = false)
         skipped →
  (∃ t, tiles s !! j = Some t ∧ visibleOn (world s) screen t = true) →
  moveTileLoop (skipped ++ j :: rest) screen dir idx step s
  = swapTiles idx j
      (foldl (fun a i => updTile i (markFault (world s) screen) a) s skipped).
Proof.
  intros Hstep. revert s. induction skipped as [|i skipped IH]; intros s Hall Hj.
  - destruct Hj as (t & Ht & Hv). simpl.
    rewrite (isTileVisible_eq j screen s t Ht), Hv.
    rewrite updTile_fixed
      by (intros u Hu; simplify_eq; by apply markFault_visible).
    rewrite Hstep. done.
  - inversion Hall as [|? ? (t & Ht & Hv) Hrest]; subst. cbn [app moveTileLoop foldl].
    rewrite (isTileVisible_eq i screen s t Ht), Hv.
    set (s1 := updTile i (markFault (world s) screen) s).
    assert (Hsame : ∀ k u, tiles s !! k = Some u →
              ∃ u', tiles s1 !! k = Some u' ∧
                    visibleOn (world s) screen u' = visibleOn (world s) screen u).
    { intros k u Hk. unfold s1, updTile. cbn [tiles setTiles].
      destruct (decide (i = k)) as [->|Hne].
      - rewrite list_lookup_alter_eq, Hk. eexists. split; [done|].
        apply visibleOn_markFault.
      - rewrite list_lookup_alter_ne by done. eauto. }
    rewrite (IH s1).
    + done.
    + eapply Forall_impl; [exact Hrest|]. intros k (u & Hu & Hvu).
      destruct (Hsame k u Hu) as (u' & Hu' & Hv'). exists u'.
      split; [done|]. change (world s1) with (world s). congruence.
    + destruct Hj as (u & Hu & Hvu).
      destruct (Hsame j u Hu) as (u' & Hu' & Hv'). exists u'.
      split; [done|]. change (world s1) with (world s). congruence.
Qed.

Lemma marks_ascending (f : Tile.t → Tile.t) (M A B : list Tile.t) :
  foldl (fun ts i => alter f i ts) (A ++ M ++ B) (seq (length A) (length M))
  = A ++ map f M ++ B.
Proof.
  revert A. induction M as [|m M IH]; intros A; [done|].
  cbn [length seq foldl].
  replace (length A) with (length A + 0)%nat at 1 by lia.
  rewrite alter_app_r. cbn.
  specialize (IH (A ++ [f m])). rewrite length_app in IH. cbn in IH.
  replace (length A + 1)%nat with (S (length A)) in IH by lia.
  rewrite <- !app_assoc in IH. exact IH.
Qed.

Lemma marks_descending (f : Tile.t → Tile.t) (M A B : list Tile.t) :
  foldl (fun ts i => alter f i ts) (A ++ M ++ B) (rev (seq (length A) (length M)))
  = A ++ map f M ++ B.
Proof.
  revert B. induction M as [|m M IH] using rev_ind; intros B; [done|].
  rewrite length_app. cbn [length]. rewrite seq_app, rev_app_distr. cbn [seq rev app foldl].
  rewrite <- !app_assoc. cbn [app].
  replace (length A + length M)%nat with (length (A ++ M) + 0)%nat by (rewrite length_app; lia).
  rewrite (app_assoc A M (m :: B)). rewrite alter_app_r. cbn.
  rewrite <- app_assoc. rewrite (IH (f m :: B)).
  rewrite map_app. cbn. by rewrite <- !app_assoc.
Qed.

Lemma swap_in_place (P M Q : list Tile.t) (a b : Tile.t) :
  <[length P := b]> (<[(length P + S (length M))%nat := a]> (P ++ a :: M ++ b :: Q))
  = P ++ b :: M ++ a :: Q ∧
  <[(length P + S (length M))%nat := a]> (<[length P := b]> (P ++ a :: M ++ b :: Q))
  = P ++ b :: M ++ a :: Q.
Proof.
  assert (Hin : ∀ x y, <[S (length M) := x]> (y :: M ++ b :: Q) = y :: M ++ x :: Q).
  { intros x y.
    change (<[S (length M) := x]> (y :: M ++ b :: Q))
      with (y :: <[length M := x]> (M ++ b :: Q)).
    f_equal. replace (length M) with (length M + 0)%nat at 1 by lia.
    by rewrite insert_app_r. }
  split.
  - rewrite insert_app_r, Hin.
    replace (length P) with (length P + 0)%nat at 1 by lia.
    by rewrite insert_app_r.
  - replace (length P) with (length P + 0)%nat at 2 by lia.
    rewrite insert_app_r.
    change (<[0%nat := b]> (a :: M ++ b :: Q)) with (b :: M ++ b :: Q).
    by rewrite insert_app_r, Hin.
Qed.

Lemma filter_invisible (w : World) (screen : option Screen.t) (M : list Tile.t) :
  Forall (fun t => visibleOn w screen t = false) M →
  filter (fun t => visibleOn w screen t = true) M = [] ∧
  filter (fun t => visibleOn w screen t = true) (map (markFault w screen) M) = [].
Proof.
  induction 1 as [|t M Ht _ [IH1 IH2]]; [done|]. cbn [map].
  rewrite !filter_cons, visibleOn_markFault, Ht, IH1, IH2.
  by case_decide.
Qed.
Lemma lookup_in_place (P M Q : list Tile.t) (a b : Tile.t) :
  (P ++ a :: M ++ b :: Q) !! length P = Some a ∧
  (P ++ a :: M ++ b :: Q) !! (length P + S (length M))%nat = Some b ∧
  ∀ k, (S (length P) ≤ k < S (length P) + length M)%nat →
       ∃ t, (P ++ a :: M ++ b :: Q) !! k = Some t ∧ t ∈ M.
Proof.
  split_and!.
  - by apply list_lookup_middle.
  - rewrite lookup_app_r by lia.
    replace (length P + S (length M) - length P)%nat with (S (length M)) by lia.
    by apply (list_lookup_middle (a :: M)).
  - intros k Hk. rewrite lookup_app_r by lia.
    destruct (k - length P)%nat as [|k'] eqn:Hk'; [lia|]. cbn.
    destruct (lookup_lt_is_Some_2 M k') as [t Ht]; [lia|].
    exists t. split; [by apply lookup_app_l_Some|].
    by eapply list_elem_of_lookup_2.
Qed.

Lemma visible_in_place (w : World) (screen : option Screen.t)
    (P M Q : list Tile.t) (a b : Tile.t) :
  visibleOn w screen a = true →
  visibleOn w screen b = true →
  filter (fun t => visibleOn w screen t = true) M = [] →
  map Tile.client (filter (fun t => visibleOn w screen t = true) (P ++ a :: M ++ b :: Q))
  = map Tile.client (filter (fun t => visibleOn w screen t = true) P)
    ++ [Tile.client a; Tile.client b]
    ++ map Tile.client (filter (fun t => visibleOn w screen t = true) Q).
Proof.
  intros Ha Hb HM.
  rewrite filter_app, filter_cons, filter_app, filter_cons, HM.
  destruct (decide (visibleOn w screen a = true)); [|done].
  destruct (decide (visibleOn w screen b = true)); [|done].
  by rewrite map_app.
Qed.

(** The hypotheses of the statement below cover every focused tile that
    has a visible tile before it (after it): the list splits around the
    nearest one. *)
Lemma nearest_earlier_visible (w : World) (screen : option Screen.t)
    (ts : list Tile.t) (idx : nat) (tT : Tile.t) :
  ts !! idx = Some tT →
  Exists (fun t => visibleOn w screen t = true) (take idx ts) →
  ∃ P tj M Q, ts = P ++ tj :: M ++ tT :: Q ∧
              idx = (length P + S (length M))%nat ∧
              visibleOn w screen tj = true ∧
              Forall (fun t => visibleOn w screen t = false) M.
Proof.
  intros Hidx Hex.
  assert (Hsplit : ∃ P tj M, take idx ts = P ++ tj :: M ∧
                     visibleOn w screen tj = true ∧
                     Forall (fun t => visibleOn w screen t = false) M).
  { clear Hidx. induction (take idx ts) as [|y l IH] using rev_ind.
    - by apply Exists_nil in Hex.
    - destruct (visibleOn w screen y) eqn:Hy.
      + exists l, y, []. by split_and!.
      + apply Exists_app in Hex as [Hex|Hex].
        * destruct (IH Hex) as (P & tj & M & -> & Hj & HM).
          exists P, tj, (M ++ [y]). rewrite <- app_assoc. split_and!; [done..|].
          apply Forall_app. split; [done|]. by constructor.
        * apply Exists_cons in Hex as [Hex|Hex]; [congruence|].
          by apply Exists_nil in Hex. }
  destruct Hsplit as (P & tj & M & Htake & Hj & HM).
  exists P, tj, M, (drop (S idx) ts). split_and!; [|  |done..].
  - rewrite <- (take_drop_middle ts idx tT Hidx) at 1.
    rewrite Htake. by rewrite <- app_assoc.
  - apply (f_equal length) in Htake. rewrite length_take, length_app in Htake.
    apply lookup_lt_Some in Hidx. cbn in Htake. lia.
Qed.

Lemma nearest_later_visible (w : World) (screen : option Screen.t)
    (ts : list Tile.t) (idx : nat) (tT : Tile.t) :
  ts !! idx = Some tT →
  Exists (fun t => visibleOn w screen t = true) (drop (S idx) ts) →
  ∃ P M tj Q, ts = P ++ tT :: M ++ tj :: Q ∧
              idx = length P ∧
              visibleOn w screen tj = true ∧
              Forall (fun t => visibleOn w screen t = false) M.
Proof.
  intros Hidx Hex.
  assert (Hsplit : ∃ M tj Q, drop (S idx) ts = M ++ tj :: Q ∧
                     visibleOn w screen tj = true ∧
                     Forall (fun t => visibleOn w screen t = false) M).
  { clear Hidx. induction (drop (S idx) ts) as [|y l IH].
    - by apply Exists_nil in Hex.
    - destruct (visibleOn w screen y) eqn:Hy.
      + exists [], y, l. by split_and!.
      + apply Exists_cons in Hex as [Hex|Hex]; [congruence|].
        destruct (IH Hex) as (M & tj & Q & -> & Hj & HM).
        exists (y :: M), tj, Q. split_and!; [done..|]. by constructor. }
  destruct Hsplit as (M & tj & Q & Hdrop & Hj & HM).
  exists (take idx ts), M, tj, Q. split_and!; [| |done..].
  - rewrite <- (take_drop_middle ts idx tT Hidx) at 1. by rewrite Hdrop.
  - rewrite length_take. apply lookup_lt_Some in Hidx. lia.
Qed.

(** C8, amended. [moveTile(-1)] (ShiftUp) exchanges the focused tile [tT]
    with the nearest earlier tile [tj] that is visible on the active
    screen; [moveTile(+1)] (ShiftDown) does the same with the nearest
    later one.  Every other tile keeps its slot in the global list: the
    tiles [P] before the pair, the tiles [Q] after it, and the tiles [M]
    between the two, none of which is visible (those whose check faulted
    come out marked).  When the focused tile is itself visible, it thereby
    moves exactly one place among the windows visible on the active
    screen.  The call returns; [active] is what [getActiveScreen] answers,
    which it does whenever a tile has the focus. *)
Theorem moveTile_swaps_with_nearest_visible (s : St) (active : option nat)
    (P M Q : list Tile.t) (tj tT : Tile.t) :
  getActiveScreen s = Ret active →
  let w := world s in
  let screen := screenAt s active in
  let seen := fun ts => map Tile.client (filter (fun t => visibleOn w screen t = true) ts) in
  visibleOn w screen tj = true →
  Forall (fun t => visibleOn w screen t = false) M →
  (tiles s = P ++ tj :: M ++ tT :: Q →
   getActiveTile s = Some (length P + S (length M))%nat →
   moveTile (-1) s
   = (Ret tt, setTiles (P ++ tT :: map (markFault w screen) M ++ tj :: Q) s) ∧
   (visibleOn w screen tT = true →
    visibleClients screen s = seen P ++ [Tile.client tj; Tile.client tT] ++ seen Q ∧
    visibleClients screen (snd (moveTile (-1) s))
    = seen P ++ [Tile.client tT; Tile.client tj] ++ seen Q)) ∧
  (tiles s = P ++ tT :: M ++ tj :: Q →
   getActiveTile s = Some (length P) →
   moveTile 1 s
   = (Ret tt, setTiles (P ++ tj :: map (markFault w screen) M ++ tT :: Q) s) ∧
   (visibleOn w screen tT = true →
    visibleClients screen s = seen P ++ [Tile.client tT; Tile.client tj] ++ seen Q ∧
    visibleClients screen (snd (moveTile 1 s))
    = seen P ++ [Tile.client tj; Tile.client tT] ++ seen Q)).
Proof.
  intros Hactive w screen seen Hj HM.
  destruct (filter_invisible w screen M HM) as [HfM HfM'].
  assert (Hskip : ∀ a b (visit : list nat),
            tiles s = P ++ a :: M ++ b :: Q →
            (∀ k, k ∈ visit → S (length P) ≤ k < S (length P) + length M)%nat →
            Forall (fun i => ∃ t, tiles s !! i = Some t ∧ visibleOn w screen t = false)
                   visit).
  { intros a b visit Hts Hrange. apply Forall_forall. intros k Hk.
    destruct (lookup_in_place P M Q a b) as (_ & _ & Hmid).
    destruct (Hmid k (Hrange k Hk)) as (t & Ht & Hin). exists t.
    rewrite Hts. split; [done|]. rewrite Forall_forall in HM. auto. }
  split.
  - intros Hts Hact.
    assert (Hmove : moveTile (-1) s
                    = (Ret tt,
                       setTiles (P ++ tT :: map (markFault w screen) M ++ tj :: Q) s)).
    { unfold moveTile, bind, call. rewrite Hact, Hactive.
      cbn [Z.eqb Z.ltb Z.compare]. fold screen. f_equal.
      replace (rev (seq 0 (length P + S (length M))))
        with (rev (seq (S (length P)) (length M)) ++ length P :: rev (seq 0 (length P))).
      2:{ rewrite seq_app. cbn [seq]. rewrite rev_app_distr. cbn [rev].
          by rewrite <- !app_assoc. }
      rewrite moveTileLoop_first_visible; [|done| |].
      - rewrite foldl_updTile, Hts. fold w.
        replace (P ++ tj :: M ++ tT :: Q) with ((P ++ [tj]) ++ M ++ tT :: Q)
          by (by rewrite <- app_assoc).
        replace (S (length P)) with (length (P ++ [tj]))
          by (rewrite length_app; cbn; lia).
        rewrite marks_descending. rewrite <- app_assoc. cbn [app].
        set (M' := map (markFault w screen) M).
        assert (HlenM : length M' = length M) by apply length_map.
        destruct (lookup_in_place P M' Q tj tT) as (Hl1 & Hl2 & _).
        rewrite HlenM in Hl2.
        unfold swapTiles. cbn [tiles setTiles]. rewrite Hl1, Hl2.
        destruct (swap_in_place P M' Q tj tT) as [Hswap _]. rewrite HlenM in Hswap.
        rewrite Hswap. by destruct s.
      - apply (Hskip tj tT); [done|]. intros k Hk.
        apply list_elem_of_In, in_rev, list_elem_of_In, elem_of_seq in Hk. lia.
      - exists tj. rewrite Hts. split; [|done].
        by destruct (lookup_in_place P M Q tj tT) as (-> & _). }
    split; [done|]. intros HT. rewrite Hmove. cbn [snd].
    rewrite !visibleClients_eq.
    cbn [tiles world setTiles]. fold w. rewrite Hts. split.
    + by apply visible_in_place.
    + by apply visible_in_place.
  - intros Hts Hact.
    assert (Hmove : moveTile 1 s
                    = (Ret tt,
                       setTiles (P ++ tj :: map (markFault w screen) M ++ tT :: Q) s)).
    { unfold moveTile, bind, call. rewrite Hact, Hactive.
      cbn [Z.eqb Z.ltb Z.compare]. fold screen. f_equal.
      replace (seq (S (length P)) (length (tiles s) - S (length P)))
        with (seq (S (length P)) (length M)
              ++ (length P + S (length M))%nat
                 :: seq (S (length P + S (length M))) (length Q)).
      2:{ rewrite Hts, length_app. cbn [length]. rewrite length_app. cbn [length].
          replace (length P + S (length M + S (length Q)) - S (length P))%nat
            with (length M + S (length Q))%nat by lia.
          rewrite (seq_app (length M) (S (length Q))). cbn [seq].
          by replace (S (length P) + length M)%nat
               with (length P + S (length M))%nat by lia. }
      rewrite moveTileLoop_first_visible; [|done| |].
      - rewrite foldl_updTile, Hts. fold w.
        replace (P ++ tT :: M ++ tj :: Q) with ((P ++ [tT]) ++ M ++ tj :: Q)
          by (by rewrite <- app_assoc).
        replace (S (length P)) with (length (P ++ [tT]))
          by (rewrite length_app; cbn; lia).
        rewrite marks_ascending. rewrite <- app_assoc. cbn [app].
        set (M' := map (markFault w screen) M).
        assert (HlenM : length M' = length M) by apply length_map.
        destruct (lookup_in_place P M' Q tT tj) as (Hl1 & Hl2 & _).
        rewrite HlenM in Hl2.
        unfold swapTiles. cbn [tiles setTiles]. rewrite Hl1, Hl2.
        destruct (swap_in_place P M' Q tT tj) as [_ Hswap]. rewrite HlenM in Hswap.
        rewrite Hswap. by destruct s.
      - apply (Hskip tT tj); [done|]. intros k Hk.
        apply elem_of_seq in Hk. lia.
      - exists tj. rewrite Hts. split; [|done].
        by destruct (lookup_in_place P M Q tT tj) as (_ & -> & _). }
    split; [done|]. intros HT. rewrite Hmove. cbn [snd].
    rewrite !visibleClients_eq.
    cbn [tiles world setTiles]. fold w. rewrite Hts. split.
    + by apply visible_in_place.
    + by apply visible_in_place.
Qed.
End MoveClaims.

(** ** The statements on concrete states *)

Section Instances.
Import Sim Examples.
Local Open Scope nat_scope.

Lemma tiles_unique_when_manage_is_fresh_witness :
  NoDup (clients (run [Manage 7; Unmanage 7; Manage 7; Manage 8] empty)).
Proof.
  apply tiles_unique_when_manage_is_fresh.
  - apply NoDup_nil_2.
  - vm_compute. repeat split; intros Hin;
      repeat (inversion Hin as [|? ? ? Hin']; subst; clear Hin; rename Hin' into Hin).
Defined.

(** C1 as stated fails: two [manageClient] calls for one window leave two
    tiles for it. *)
Lemma manage_twice_gives_two_tiles :
  clients (run [Manage 7; Manage 7] empty) = [7; 7] ∧
  ¬ NoDup (clients (run [Manage 7; Manage 7] empty)).
Proof.
  split; [reflexivity|]. intros Hnd. vm_compute in Hnd.
  apply NoDup_cons in Hnd as [Hnot _]. apply Hnot. constructor.
Qed.
Lemma loop_guard_stops_writes_witness :
  writes (arrangeClientIn 1 (repeat plain 5 ++ [plain]) fresh)
  = writes (arrangeClientIn 1 (repeat plain 5) fresh) ∧
  (∀ i t, getTileByClient 1 fresh = Some i → tiles fresh !! i = Some t →
          Tile.floating t = false → isClientFullScreen plain 1 = false →
          ∃ t', tiles (arrangeClientIn 1 (repeat plain 5 ++ [plain]) fresh) !! i = Some t' ∧
                (5 < Tile.arrangeCount t')%N).
Proof.
  apply loop_guard_stops_writes.
  - intros i t Hfind Hi. vm_compute in Hfind. injection Hfind as <-.
    vm_compute in Hi. injection Hi as <-. repeat constructor.
  - vm_compute. lia.
Defined.

(** C2 as stated fails: five invocations made while the window is
    full-screen do not touch the counter, so the sixth invocation, the
    first one past the guard, still writes. *)
Lemma sixth_invocation_can_write :
  Forall (fun w => Rect.eqb (getClientGeometry w 1) (Tile.geometry (tileOf 1)) = false)
         (repeat fullScreen 5 ++ [plain]) ∧
  writes (arrangeClientIn 1 (repeat fullScreen 5) fresh) = [] ∧
  length (writes (arrangeClientIn 1 (repeat fullScreen 5 ++ [plain]) fresh)) = 1 ∧
  writes (arrangeClientIn 1 (repeat fullScreen 5 ++ [plain]) fresh)
  ≠ writes (arrangeClientIn 1 (repeat fullScreen 5) fresh).
Proof.
  split_and!; [repeat constructor|reflexivity|reflexivity|].
  vm_compute. discriminate.
Qed.

Lemma arrangeClient_increments_counter_witness :
  let t' := Tile.setArrangeCount 4%N (tileOf 1) in
  tiles (arrangeClient 1 oneTile) = [t'] ∧
  writes (arrangeClient 1 oneTile) = [mkWrite t' (Tile.geometry t')].
Proof.
  destruct (arrangeClient_increments_counter 1 oneTile 0
              (Tile.setArrangeCount 3%N (tileOf 1)))
    as (Ht & Hw & _); try reflexivity.
  split; [exact Ht|]. apply Hw. vm_compute. discriminate.
Defined.

(** C3 as stated fails: the window is tracked, tiled, not full-screen and
    off its target, and [arrangeClient] takes its counter from 3 to 4, not
    to 0. *)
Lemma arrangeClient_does_not_reset_counter :
  getTileByClient 1 oneTile = Some 0 ∧
  Tile.floating <$> tiles oneTile !! 0 = Some false ∧
  isClientFullScreen (world oneTile) 1 = false ∧
  Rect.eqb (getClientGeometry (world oneTile) 1) (Rect.mk 0 0 400 800) = false ∧
  Tile.arrangeCount <$> tiles oneTile !! 0 = Some 3%N ∧
  Tile.arrangeCount <$> tiles (arrangeClient 1 oneTile) !! 0 = Some 4%N.
Proof. by split_and!. Qed.

Lemma error_flag_marks_but_does_not_hide_witness :
  (0 ∉ fst (getVisibleTiles (Some screen0) (setWorld faulty fresh))) ∧
  ∃ t', tiles (snd (getVisibleTiles (Some screen0) (setWorld faulty fresh))) !! 0 = Some t' ∧
        Tile.isError t' = true.
Proof.
  apply (proj1 (proj2 (error_flag_marks_but_does_not_hide
                         (setWorld faulty fresh) screen0)) 0 (tileOf 1));
    reflexivity.
Defined.

(** C4 as stated fails: the tile was flagged by a faulting check, and as
    soon as the driver's check answers true again the tile is back in the
    visible set and the next arrange pass writes its geometry. *)
Lemma flagged_tile_is_visible_again :
  Tile.isError <$> tiles afterFault !! 0 = Some true ∧
  fst (getVisibleTiles (Some screen0) (setWorld plain afterFault)) = [0] ∧
  length (writes (snd (arrange (setWorld plain afterFault)))) = 1.
Proof. by split_and!. Qed.

Lemma manageClient_ignore_rule_witness :
  manageClient 5 krunnerRules = (Ret false, krunnerRules).
Proof.
  apply (manageClient_ignore_rule 5 krunnerRules (Rule.new "krunner" true false)).
  - vm_compute. apply list_elem_of_further, list_elem_of_here.
  - reflexivity.
  - reflexivity.
Defined.

Lemma setMaster_promotes_focused_tile_witness :
  ∃ T, tiles fourTiles !! 2 = Some T ∧
       getActiveClient (world fourTiles) = Some (Tile.client T) ∧
       setMaster fourTiles = setTiles (T :: delete 2 (tiles fourTiles)) fourTiles ∧
       tiles (setMaster fourTiles) !! 0 = Some T ∧
       (∀ k, k < 2 → tiles (setMaster fourTiles) !! S k = tiles fourTiles !! k) ∧
       (∀ k, 2 < k → tiles (setMaster fourTiles) !! k = tiles fourTiles !! k).
Proof.
  exact (proj1 (setMaster_promotes_focused_tile fourTiles) 2 eq_refl).
Defined.

Lemma tiling_path_spares_floating_tiles_witness :
  arrangeClient 1 floatingTile = floatingTile.
Proof.
  apply (proj1 (proj2 (proj2 (tiling_path_spares_floating_tiles floatingTile)))
           1 0 (Tile.setFloating true (tileOf 1))); reflexivity.
Defined.

Lemma moveTile_swaps_with_nearest_visible_witness :
  moveTile (-1) threeTiles
  = (Ret tt, setTiles [tileOf 3; tileOf 2; tileOf 1] threeTiles) ∧
  (visibleOn hiddenMiddle (Some screen0) (tileOf 3) = true →
   visibleClients (Some screen0) threeTiles = [1; 3] ∧
   visibleClients (Some screen0) (snd (moveTile (-1) threeTiles)) = [3; 1]).
Proof.
  refine (proj1 (moveTile_swaps_with_nearest_visible (H := Sim.host) threeTiles
                   (Some 0) [] [tileOf 2] [] (tileOf 1) (tileOf 3) _ _ _) _ _);
    try reflexivity.
  repeat constructor.
Defined.

(** C8 as stated fails: window 2 is not visible on the active screen, and
    ShiftUp on window 3 exchanges it with window 1 across window 2, so the
    two other tiles, 1 and 2, change their order in the global list. *)
Lemma shift_up_reorders_other_tiles :
  visibleClients (Some screen0) threeTiles = [1; 3] ∧
  getActiveTile threeTiles = Some 2 ∧
  clients threeTiles = [1; 2; 3] ∧
  clients (snd (moveTile (-1) threeTiles)) = [3; 2; 1] ∧
  filter (fun c => c ≠ 3) (clients threeTiles) = [1; 2] ∧
  filter (fun c => c ≠ 3) (clients (snd (moveTile (-1) threeTiles))) = [2; 1].
Proof. by split_and!. Qed.

Lemma cycleLayout_full_round_witness :
  cycleLayoutTimes 4 fresh = fresh ∧
  (∀ p, Screen.layouts screen0 !! p = Some 10 →
        Screen.layout <$> (screens (snd (cycleLayout 1 fresh)) !! 0)
        = LObj <$> (Screen.layouts screen0 !! ((p + 1) mod 4))).
Proof.
  apply (cycleLayout_full_round fresh 0 screen0 10); try reflexivity.
  - apply (bool_decide_unpack _). vm_compute. exact I.
  - vm_compute. apply list_elem_of_here.
Defined.

(** C9 as stated fails: the layouts list has length 3 and the active
    layout is its first entry, yet three forward cycles end on the second
    entry, because the entry at position 2 is found again at position 0. *)
Lemma three_cycles_do_not_return :
  length (Screen.layouts screenRepeated) = 3 ∧
  Screen.layout <$> screens repeatedLayouts !! 0 = Some (LObj 10) ∧
  Screen.layout <$> screens (cycleLayoutTimes 3 repeatedLayouts) !! 0 = Some (LObj 11) ∧
  cycleLayoutTimes 3 repeatedLayouts ≠ repeatedLayouts.
Proof.
  split_and!; [reflexivity..|]. intros Heq.
  apply (f_equal (fun s => Screen.layout <$> screens s !! 0)) in Heq.
  vm_compute in Heq. discriminate.
Qed.

Lemma handleUserInput_without_screens_witness :
  snd (handleUserInput SetMaster noScreens) = noScreens ∧
  handleUserInput SetMaster noScreens = (Ret tt, noScreens).
Proof.
  destruct (handleUserInput_without_screens (H := Sim.host) SetMaster noScreens
              eq_refl) as [Hsame Hret].
  split; [exact Hsame|]. apply (Hret 1). reflexivity.
Defined.

(** C10 as stated fails: the screen list is empty and no window has the
    focus; the call raises instead of returning. *)
Lemma handleUserInput_raises_without_focus :
  screens noScreensNoFocus = [] ∧
  fst (handleUserInput SetMaster noScreensNoFocus) = Throw ∧
  handleUserInput SetMaster noScreensNoFocus ≠ (Ret tt, noScreensNoFocus).
Proof. split_and!; [reflexivity..|]. intros Heq. discriminate Heq. Qed.

(** A few runs of the model. *)

Example focus_up_wraps_around :
  simActive (world (snd (handleUserInput Up
                           (state [screen0] [tileOf 1; tileOf 2; tileOf 3] plain))))
  = Some 3.
Proof. reflexivity. Qed.

Example focus_with_nothing_visible_never_returns :
  fst (handleUserInput Up
         (state [screen0] [tileOf 1] (withVisible (fun _ _ => Some false) plain)))
  = Diverge.
Proof. reflexivity. Qed.

Example arrange_resets_counter_and_writes :
  tiles (snd (arrange oneTile)) = [tileOf 1] ∧
  writes (snd (arrange oneTile)) = [mkWrite (tileOf 1) (Rect.mk 0 0 400 800)].
Proof. by split. Qed.

Example floating_rule_floats_new_window :
  let s := updateRules [Rule.new "konsole" false true] empty in
  Tile.floating <$> tiles (snd (manageClient 9 s)) !! 0 = Some true ∧
  fst (manageClient 9 s) = Ret true.
Proof. by split. Qed.

Example screens_get_fresh_layouts :
  map Screen.layouts (screens (addScreen 1 (addScreen 0 empty)))
  = [[0; 1; 2; 3]; [4; 5; 6; 7]] ∧
  map Screen.id (screens (removeScreen 1 (addScreen 1 (addScreen 0 empty)))) = [0%Z].
Proof. by split. Qed.
End Instances.

(** ** Floating mode *)

Section FloatFacts.
Context {World : Type} `{Host World}.
Local Abbreviation St := (@St World).

(** [setFloat] with the value the tile already has does nothing, so
    asking twice for the same mode acts once: the second call returns the
    tile and the state the first one left. *)
Theorem setFloat_same_value_twice (t : Tile.t) (b : bool)
    (g g' : option Rect.t) (s : St) :
  Tile.floating (fst (setFloat t (FBool b) g s)) = b ∧
  setFloat (fst (setFloat t (FBool b) g s)) (FBool b) g'
           (snd (setFloat t (FBool b) g s))
  = setFloat t (FBool b) g s.
Proof.
  unfold setFloat.
  destruct (Bool.eqb (Tile.floating t) b) eqn:E.
  - apply Bool.eqb_prop in E. cbn [fst snd]. by rewrite E, Bool.eqb_reflx.
  - destruct b; cbn [fst snd Tile.floating Tile.setFloating Tile.setFloatGeometry];
      by split.
Qed.

(** What one [setFloat] does.  The window, the target geometry, the retry
    counter and the error flag of the tile stay, and so do the engine's
    lists.  The host gets a geometry write exactly when the tile enters
    floating mode: the geometry given, else the remembered float
    geometry.  When the tile leaves floating mode nothing is written and
    the geometry given, else the live one, becomes the remembered float
    geometry.  Otherwise nothing changes. *)
Theorem setFloat_effect (t : Tile.t) (v : FloatValue) (g : option Rect.t) (s : St) :
  let t' := fst (setFloat t v g s) in
  let s' := snd (setFloat t v g s) in
  sameButFloat t t' ∧
  tiles s' = tiles s ∧ screens s' = screens s ∧ rules s' = rules s ∧
  match Tile.floating t, Tile.floating t' with
  | false, true =>
      Tile.floatGeometry t' = Tile.floatGeometry t ∧
      s' = writeGeometry t' (default (Tile.floatGeometry t) g) s
  | true, false =>
      Tile.floatGeometry t'
      = default (getClientGeometry (world s) (Tile.client t)) g ∧
      s' = s
  | _, _ => t' = t ∧ s' = s
  end.
Proof.
  unfold setFloat, sameButFloat. destruct t as [n c fl geo err fg].
  destruct v as [[]|], fl; cbn; split_and!; try done;
    unfold Rect.copyFrom; by destruct (default _ g).
Qed.

(** Two toggles in a row bring the tile back to the mode it had, with
    the same window, target, counter and error flag, and the host has
    received exactly one geometry write in between, made for the tile
    while floating. *)
Theorem setFloat_toggle_twice (t : Tile.t) (g1 g2 : option Rect.t) (s : St) :
  let r1 := setFloat t FToggle g1 s in
  let r2 := setFloat (fst r1) FToggle g2 (snd r1) in
  Tile.floating (fst r2) = Tile.floating t ∧
  sameButFloat t (fst r2) ∧
  ∃ w, writes (snd r2) = w :: writes s ∧
       Tile.floating (wtile w) = true ∧
       Tile.client (wtile w) = Tile.client t.
Proof.
  unfold setFloat, sameButFloat. destruct t as [n c fl geo err fg].
  destruct fl; cbn; split_and!; try done; eexists; split_and!; done.
Qed.

(** [setClientFloat] for a window without a tile does nothing; for a
    tracked window it applies [setFloat], with the geometry given, to the
    first tile of that window and leaves every other slot and the order of
    the windows as they were. *)
Theorem setClientFloat_touches_one_tile (c : Client) (v : FloatValue)
    (g : Rect.t) (s : St) :
  (getTileByClient c s = None → setClientFloat c v g s = s) ∧
  (∀ i t, getTileByClient c s = Some i → tiles s !! i = Some t →
          tiles (setClientFloat c v g s)
          = <[i := fst (setFloat t v (Some g) s)]> (tiles s) ∧
          clients (setClientFloat c v g s) = clients s ∧
          writes (setClientFloat c v g s) = writes (snd (setFloat t v (Some g) s))).
Proof.
  split.
  - intros Hnone. unfold setClientFloat. by rewrite Hnone.
  - intros i t Hfind Hi. unfold setClientFloat, setFloatAt. rewrite Hfind.
    assert (Hg : Rect.mk (Rect.x g) (Rect.y g) (Rect.width g) (Rect.height g) = g)
      by (by destruct g).
    rewrite Hg, Hi.
    pose proof (setFloat_client t v (Some g) s) as Hc.
    pose proof (setFloat_tiles t v (Some g) s) as Ht.
    destruct (setFloat t v (Some g) s) as [t' s1]. cbn [fst snd] in *.
    assert (Hlt : (i < length (tiles s))%nat) by (eapply lookup_lt_Some; eauto).
    assert (Halter : alter (fun _ => t') i (tiles s1) = <[i := t']> (tiles s)).
    { rewrite Ht. apply list_eq. intros j. destruct (decide (i = j)) as [->|Hne].
      - by rewrite list_lookup_alter_eq, Hi, list_lookup_insert_eq.
      - by rewrite list_lookup_alter_ne, list_lookup_insert_ne. }
    unfold updTile. cbn [tiles setTiles writes]. split_and!; [done| |done].
    unfold clients. cbn [tiles setTiles]. rewrite Halter.
    change (map ?f ?l) with (f <$> l). rewrite list_fmap_insert, Hc.
    apply list_insert_id. rewrite list_lookup_fmap, Hi. cbn.
    apply getTileByClient_Some in Hfind as (u & Hu & Hcu & _). congruence.
Qed.
End FloatFacts.

(** ** Rules, managing and unmanaging *)

Section LifecycleFacts.
Context {World : Type} `{Host World}.
Local Abbreviation St := (@St World).

(** A rule matches a window exactly when it was built with a non-empty
    class name equal to the window's: a rule built with the empty string
    matches nothing, not even a window whose class name is empty. *)
Theorem Rule_new_matches (name n : string) (ign fl : bool) :
  Rule.matches name (Rule.new n ign fl) = true ↔ n ≠ ""%string ∧ name = n.
Proof.
  unfold Rule.matches, Rule.new. destruct n as [|a n]; cbn.
  - split; [done|]. by intros [? _].
  - rewrite String.eqb_eq. split; [by intros ->|by intros [_ ->]].
Qed.

Lemma arrangeScreen_outcome (sc : Screen.t) (s : St) :
  fst (arrangeScreen sc s)
  = match Screen.layout sc with LUndefined => Throw | _ => Ret tt end.
Proof.
  unfold arrangeScreen. destruct (Screen.layout sc); [done| |];
    destruct (getVisibleTiles _ _) as [vis s1];
    by destruct (filterSt notFullScreen vis s1).
Qed.

Lemma forEachM_arrangeScreen_outcome (xs : list Screen.t) (s : St) :
  (Exists (fun sc => Screen.layout sc = LUndefined) xs ∧
   fst (forEachM arrangeScreen xs s) = Throw) ∨
  (Forall (fun sc => Screen.layout sc ≠ LUndefined) xs ∧
   fst (forEachM arrangeScreen xs s) = Ret tt).
Proof.
  revert s. induction xs as [|sc xs IH]; intros s; [right; by split|].
  cbn [forEachM]. unfold bind.
  pose proof (arrangeScreen_outcome sc s) as Ho.
  destruct (arrangeScreen sc s) as [o s1]. cbn [fst] in Ho. subst o.
  destruct (Screen.layout sc) eqn:Hl.
  - destruct (IH s1) as [[He Ht]|[Hf Ht]]; [left|right]; split; try done.
    + by apply Exists_cons_tl.
    + constructor; [congruence|done].
  - left. split; [by apply Exists_cons_hd|done].
  - destruct (IH s1) as [[He Ht]|[Hf Ht]]; [left|right]; split; try done.
    + by apply Exists_cons_tl.
    + constructor; [congruence|done].
Qed.

(** [arrange] raises exactly when some screen has an undefined layout (an
    array read out of range), and returns otherwise; a [null] layout only
    makes it skip the screen. *)
Theorem arrange_raises_iff_undefined_layout (s : St) :
  (fst (arrange s) = Throw ↔
   Exists (fun sc => Screen.layout sc = LUndefined) (screens s)) ∧
  (fst (arrange s) = Ret tt ↔
   Forall (fun sc => Screen.layout sc ≠ LUndefined) (screens s)).
Proof.
  unfold arrange.
  assert (Hexcl : Exists (fun sc => Screen.layout sc = LUndefined) (screens s) →
                  Forall (fun sc => Screen.layout sc ≠ LUndefined) (screens s) → False).
  { intros He Hf. apply Exists_exists in He as (sc & Hin & Hu).
    rewrite Forall_forall in Hf. by destruct (Hf sc Hin). }
  destruct (forEachM_arrangeScreen_outcome (screens s) s) as [[He Ht]|[Hf Ht]];
    rewrite Ht.
  - split; split; [done|done|discriminate|]. intros Hf. by destruct (Hexcl He Hf).
  - split; split; [discriminate| |done|done]. intros He. by destruct (Hexcl He Hf).
Qed.

(** [arrange] never adds, drops or reorders tiles and never touches the
    screens or the rules, whatever the host and the layouts answer and
    also when it raises: each tile stays in its slot with its window, its
    mode and its remembered float geometry. *)
Theorem arrange_keeps_engine_lists (s : St) :
  screens (snd (arrange s)) = screens s ∧
  rules (snd (arrange s)) = rules s ∧
  length (tiles (snd (arrange s))) = length (tiles s) ∧
  clients (snd (arrange s)) = clients s ∧
  ∀ i t, tiles s !! i = Some t →
         ∃ t', tiles (snd (arrange s)) !! i = Some t' ∧
               Tile.client t' = Tile.client t ∧
               Tile.floating t' = Tile.floating t ∧
               Tile.floatGeometry t' = Tile.floatGeometry t.
Proof.
  pose proof (arranged_arrange s) as Ha.
  pose proof (arranged_clients _ _ Ha) as Hc.
  destruct Ha as [Hs Hr _ Ht _]. split_and!; [done..| |done|].
  - symmetry. by eapply Forall2_length.
  - intros i t Hi.
    destruct (Forall2_lookup_l _ _ _ _ _ Ht Hi) as (t' & Hi' & Hk).
    exists t'. destruct Hk as (? & ? & ? & _). by split_and!.
Qed.

Lemma Rect_eqb_refl (r : Rect.t) : Rect.eqb r r = true.
Proof. unfold Rect.eqb. by rewrite !Z.eqb_refl. Qed.

(** When the live geometry of a tracked, tiled, non-full-screen window
    already is its tile's target, [arrangeClient] writes nothing to the
    host and puts the retry counter back to zero, so the loop guard is
    armed again. *)
Theorem arrangeClient_converged (c : Client) (s : St) (i : nat) (t : Tile.t) :
  getTileByClient c s = Some i →
  tiles s !! i = Some t →
  Tile.floating t = false →
  isClientFullScreen (world s) c = false →
  getClientGeometry (world s) c = Tile.geometry t →
  arrangeClient c s = setTiles (<[i := Tile.setArrangeCount 0%N t]> (tiles s)) s.
Proof.
  intros Hfind Ht Hfl Hfs Hgeo.
  destruct (arrangeClient_past_guards c s i t Hfind Ht Hfl Hfs) as [Hc ->].
  unfold applyTileGeometry. rewrite Ht, Hc, Hgeo, Rect_eqb_refl.
  unfold updTile. f_equal. apply list_eq. intros j.
  destruct (decide (i = j)) as [->|Hne].
  - rewrite list_lookup_alter_eq, Ht.
    by rewrite list_lookup_insert_eq by (eapply lookup_lt_Some; eauto).
  - by rewrite list_lookup_alter_ne, list_lookup_insert_ne.
Qed.
End LifecycleFacts.

Section ManageFacts.
Context {World : Type} `{Host World}.
Local Abbreviation St := (@St World).

Lemma arrange_outcome_cases (s : St) :
  fst (arrange s) = Ret tt ∨ fst (arrange s) = Throw.
Proof.
  unfold arrange.
  destruct (forEachM_arrangeScreen_outcome (screens s) s) as [[_ ->]|[_ ->]];
    [by right|by left].
Qed.

Lemma setFloat_floating_true (t : Tile.t) (g : option Rect.t) (s : St) :
  Tile.floating (fst (setFloat t (FBool true) g s)) = true.
Proof. unfold setFloat. by destruct (Tile.floating t) eqn:E. Qed.

Lemma setFloat_lists (t : Tile.t) (v : FloatValue) (g : option Rect.t) (s : St) :
  screens (snd (setFloat t v g s)) = screens s.
Proof.
  unfold setFloat. destruct v as [b|].
  - destruct (Bool.eqb _ _); [done|]. by destruct b.
  - by destruct (negb _).
Qed.

(** A window that no matching rule ignores is accepted by
    [manageClient]: its tile is appended at the tail of the tile list, in
    floating mode exactly when some rule for its class says so; the call
    never answers [false], and it answers [true] unless the arrange pass
    at its end raises, which needs a screen with an undefined layout. *)
Theorem manageClient_accepts (c : Client) (s : St) :
  (∀ r, r ∈ rules s →
        Rule.matches (getClientClassName (world s) c) r = true →
        Rule.ignore r = false) →
  clients (snd (manageClient c s)) = clients s ++ [c] ∧
  (∃ t', tiles (snd (manageClient c s)) !! length (tiles s) = Some t' ∧
         Tile.client t' = c ∧
         Tile.floating t'
         = existsb (fun r => Rule.matches (getClientClassName (world s) c) r
                             && Rule.floating r) (rules s)) ∧
  (fst (manageClient c s) = Ret true ∨ fst (manageClient c s) = Throw) ∧
  (Forall (fun sc => Screen.layout sc ≠ LUndefined) (screens s) →
   fst (manageClient c s) = Ret true).
Proof.
  intros Hno. unfold manageClient.
  assert (Hign : existsb (fun r => Rule.matches (getClientClassName (world s) c) r
                                   && Rule.ignore r) (rules s) = false).
  { apply not_true_is_false. intros Hex.
    apply existsb_exists in Hex as (r & Hin & Hr).
    apply andb_prop in Hr as [Hm Hi]. apply list_elem_of_In in Hin.
    rewrite (Hno r Hin Hm) in Hi. discriminate. }
  rewrite Hign.
  set (fl := existsb _ (rules s)).
  set (tile := Tile.new c (getClientGeometry (world s) c)).
  assert (Hpre : ∃ tile1 s1,
            (if fl then setFloat tile (FBool true) None s else (tile, s)) = (tile1, s1) ∧
            Tile.client tile1 = c ∧ Tile.floating tile1 = fl ∧
            tiles s1 = tiles s ∧ screens s1 = screens s).
  { destruct fl.
    - exists (fst (setFloat tile (FBool true) None s)),
             (snd (setFloat tile (FBool true) None s)).
      split_and!; [by destruct (setFloat _ _ _ _)| | | |].
      + by rewrite setFloat_client.
      + apply setFloat_floating_true.
      + apply setFloat_tiles.
      + apply setFloat_lists.
    - exists tile, s. by split_and!. }
  destruct Hpre as (tile1 & s1 & -> & Hc1 & Hf1 & Ht1 & Hs1).
  set (s2 := setTiles (tiles s1 ++ [tile1]) s1).
  assert (Hout : ∀ (m : M unit) (x : St),
            fst (bind m (fun _ => ret true) x)
            = match fst (m x) with Ret _ => Ret true | Throw => Throw | Diverge => Diverge end).
  { intros m x. unfold bind, ret. by destruct (m x) as [[?| |] ?]. }
  rewrite snd_bind_ret, Hout.
  pose proof (arranged_arrange s2) as Ha.
  split_and!.
  - rewrite (arranged_clients _ _ Ha). unfold clients, s2. cbn [tiles setTiles].
    rewrite Ht1, map_app. cbn. by rewrite Hc1.
  - destruct Ha as [_ _ _ Ht _].
    assert (Hl : tiles s2 !! length (tiles s) = Some tile1).
    { unfold s2. cbn [tiles setTiles]. rewrite Ht1. by apply list_lookup_middle. }
    destruct (Forall2_lookup_l _ _ _ _ _ Ht Hl) as (t' & Hl' & Hk).
    exists t'. destruct Hk as (Hc & Hf & _). split_and!; congruence.
  - destruct (arrange_outcome_cases s2) as [-> | ->]; [by left|by right].
  - intros Hall.
    destruct (forEachM_arrangeScreen_outcome (screens s2) s2) as [[He Ht]|[_ Ht]].
    + exfalso. apply Exists_exists in He as (sc & Hin & Hu).
      unfold s2 in Hin. cbn [screens setTiles] in Hin. rewrite Hs1 in Hin.
      rewrite Forall_forall in Hall. by destruct (Hall sc Hin).
    + unfold arrange. by rewrite Ht.
Qed.

Lemma getTileByClient_by_clients (c : Client) (s : St) :
  getTileByClient c s = fst <$> list_find (fun x => x = c) (clients s).
Proof.
  unfold getTileByClient, clients. change (map ?f ?l) with (f <$> l).
  rewrite list_find_fmap. by destruct (list_find _ (tiles s)) as [[]|].
Qed.

(** [getTileByClient] after [manageClient]: a window that already had a
    tile still resolves to that tile, whatever the call appended, so a
    second tile for the window is never the one looked up; a window that
    had none and is accepted resolves to the new tile at the tail. *)
Theorem lookup_after_manageClient (c : Client) (s : St) :
  (∀ i, getTileByClient c s = Some i →
        getTileByClient c (snd (manageClient c s)) = Some i) ∧
  (getTileByClient c s = None →
   clients (snd (manageClient c s)) = clients s ++ [c] →
   getTileByClient c (snd (manageClient c s)) = Some (length (tiles s))).
Proof.
  rewrite !getTileByClient_by_clients. split.
  - intros i Hfind. destruct (manageClient_clients c s) as [-> | ->]; [done|].
    apply fmap_Some in Hfind as ([k x] & Hf & ->). cbn.
    by rewrite (list_find_app_l _ _ _ _ _ Hf).
  - intros Hnone ->. apply fmap_None in Hnone.
    rewrite list_find_app_r by done. cbn.
    destruct (decide (c = c)); [|done]. cbn. unfold clients.
    by rewrite length_map.
Qed.

Lemma filter_all {A} (P : A → Prop) `{∀ x, Decision (P x)} (l : list A) :
  Forall P l → filter P l = l.
Proof.
  induction 1 as [|x l Hx _ IH]; [done|]. rewrite filter_cons.
  destruct (decide (P x)); [by rewrite IH|done].
Qed.

(** After [unmanageClient] no tile references the window any more, and
    when the window had no tile and no tile was flagged the call leaves
    the list of windows as it was: unmanaging an unknown window is not an
    error. *)
Theorem unmanageClient_forgets_window (c : Client) (s : St) :
  (c ∉ clients (snd (unmanageClient c s))) ∧
  (c ∉ clients s → Forall (fun t => Tile.isError t = false) (tiles s) →
   clients (snd (unmanageClient c s)) = clients s).
Proof.
  rewrite unmanageClient_clients. split.
  - intros Hin. apply list_elem_of_fmap in Hin as (t & -> & Hin).
    by apply list_elem_of_filter in Hin as [[? _] _].
  - intros Hnot Hok. unfold clients. f_equal. apply filter_all.
    rewrite Forall_forall in Hok. apply Forall_forall. intros t Hin.
    split; [|by apply Hok]. intros <-. apply Hnot.
    unfold clients. apply list_elem_of_fmap. by exists t.
Qed.
End ManageFacts.

(** ** Screens *)

Section ScreenFacts.
Context {World : Type} `{Host World}.
Local Abbreviation St := (@St World).

Lemma setScreens_same (s : St) : setScreens (screens s) s = s.
Proof. by destruct s. Qed.

(** [removeScreen] removes every screen with the id, so none is left;
    with no such screen it changes nothing, and it undoes an [addScreen]
    of an id that was not in use. *)
Theorem removeScreen_undoes_addScreen (id : Z) (s : St) :
  Forall (fun sc => Screen.id sc ≠ id) (screens (removeScreen id s)) ∧
  (Forall (fun sc => Screen.id sc ≠ id) (screens s) →
   removeScreen id s = s ∧
   screens (removeScreen id (addScreen id s)) = screens s).
Proof.
  split.
  - apply Forall_forall. intros sc Hin. unfold removeScreen in Hin.
    cbn [screens setScreens] in Hin. by apply list_elem_of_filter in Hin as [? _].
  - intros Hall. split.
    + unfold removeScreen. by rewrite filter_all, setScreens_same.
    + unfold removeScreen, addScreen. cbn [screens setScreens setNextLayout].
      rewrite filter_app, filter_all by done.
      rewrite filter_cons, filter_nil. cbn.
      destruct (decide (id ≠ id)); [done|by rewrite app_nil_r].
Qed.

Lemma denseScreens_lookup (s : St) :
  denseScreens s ↔
  ∀ i sc, screens s !! i = Some sc → Screen.id sc = Z.of_nat i.
Proof.
  unfold denseScreens. change (map ?f ?l) with (f <$> l). split.
  - intros Hd i sc Hi. apply (f_equal (fun l => l !! i)) in Hd.
    rewrite !list_lookup_fmap, Hi in Hd. cbn in Hd.
    rewrite lookup_seq_lt in Hd by (eapply lookup_lt_Some; eauto).
    cbn in Hd. congruence.
  - intros Hl. apply list_eq. intros i. rewrite !list_lookup_fmap.
    destruct (screens s !! i) as [sc|] eqn:Hi; cbn.
    + rewrite lookup_seq_lt by (eapply lookup_lt_Some; eauto). cbn.
      by rewrite (Hl i sc Hi).
    + apply lookup_ge_None in Hi. by rewrite lookup_seq_ge.
Qed.

Lemma denseScreens_ids (s : St) (n : nat) :
  denseScreens s → length (screens s) = n →
  map Screen.id (screens s) = map Z.of_nat (seq 0 n).
Proof. intros Hd <-. exact Hd. Qed.

(** With ids equal to slots, removing the id of the last slot removes the
    last screen and nothing else. *)
Lemma removeScreen_last (s : St) (m : nat) :
  denseScreens s → length (screens s) = S m →
  screens (removeScreen (Z.of_nat (S m) - 1) s) = take m (screens s).
Proof.
  intros Hd Hlen. rewrite denseScreens_lookup in Hd.
  unfold removeScreen. cbn [screens setScreens].
  destruct (lookup_lt_is_Some_2 (screens s) m) as [x Hx]; [lia|].
  rewrite <- (take_drop m (screens s)) at 1.
  rewrite (drop_S _ _ _ Hx), drop_ge by lia.
  rewrite filter_app, filter_cons, filter_nil.
  rewrite (Hd m x Hx).
  destruct (decide (Z.of_nat m ≠ Z.of_nat (S m) - 1)) as [Hne|_]; [lia|].
  rewrite app_nil_r. apply filter_all. apply Forall_forall. intros sc Hin.
  apply list_elem_of_lookup in Hin as [i Hi].
  pose proof (lookup_lt_Some _ _ _ Hi) as Hlt. rewrite length_take in Hlt.
  rewrite lookup_take_lt in Hi by lia. rewrite (Hd i sc Hi). lia.
Qed.

Lemma addScreensWhile_grows (fuel : nat) (count : Z) (s : St) :
  count - Z.of_nat (length (screens s)) <= Z.of_nat fuel →
  ∃ s', addScreensWhile fuel count s = Some s' ∧
        length (screens s') = max (length (screens s)) (Z.to_nat count) ∧
        take (length (screens s)) (screens s') = screens s ∧
        (denseScreens s → denseScreens s') ∧
        tiles s' = tiles s ∧ rules s' = rules s ∧
        world s' = world s ∧ writes s' = writes s.
Proof.
  revert s. induction fuel as [|fuel IH]; intros s Hfuel; cbn [addScreensWhile].
  - destruct (Z.ltb_spec (Z.of_nat (length (screens s))) count); [lia|].
    exists s. split_and!; try done; [lia|by rewrite take_ge].
  - destruct (Z.ltb_spec (Z.of_nat (length (screens s))) count) as [Hlt|Hge].
    + set (s1 := addScreen (Z.of_nat (length (screens s))) s).
      assert (Hs1 : screens s1
                    = screens s ++ [Screen.new (Z.of_nat (length (screens s)))
                                      [nextLayout s; S (nextLayout s);
                                       S (S (nextLayout s)); S (S (S (nextLayout s)))]])
        by done.
      assert (Hlen1 : length (screens s1) = S (length (screens s)))
        by (rewrite Hs1, length_app; cbn; lia).
      destruct (IH s1) as (s' & Hrun & Hlen & Htake & Hdense & Ht & Hr & Hw & Hwr);
        [lia|].
      exists s'. split_and!; try done.
      * lia.
      * rewrite Hlen1 in Htake.
        apply (f_equal (take (length (screens s)))) in Htake.
        rewrite take_take in Htake.
        replace (length (screens s) `min` S (length (screens s)))%nat
          with (length (screens s)) in Htake by lia.
        rewrite Htake, Hs1. by rewrite take_app_length.
      * intros Hd. apply Hdense. apply denseScreens_lookup. intros i sc Hi.
        rewrite denseScreens_lookup in Hd. rewrite Hs1 in Hi.
        apply lookup_app_Some in Hi as [Hi|[Hge Hi]]; [by apply Hd|].
        apply list_lookup_singleton_Some in Hi as [Hi <-]. cbn. lia.
    + exists s. split_and!; try done; [lia|by rewrite take_ge].
Qed.

Lemma removeScreensWhile_shrinks (fuel : nat) (count : Z) (s : St) :
  denseScreens s → 0 <= count →
  Z.of_nat (length (screens s)) - count <= Z.of_nat fuel →
  ∃ s', removeScreensWhile fuel count s = Some s' ∧
        screens s' = take (Z.to_nat count) (screens s) ∧
        tiles s' = tiles s ∧ rules s' = rules s ∧
        world s' = world s ∧ writes s' = writes s.
Proof.
  intros Hd Hcount. revert s Hd.
  induction fuel as [|fuel IH]; intros s Hd Hfuel; cbn [removeScreensWhile].
  - destruct (Z.ltb_spec count (Z.of_nat (length (screens s)))); [lia|].
    exists s. split_and!; try done. by rewrite take_ge by lia.
  - destruct (Z.ltb_spec count (Z.of_nat (length (screens s)))) as [Hlt|Hge].
    + destruct (length (screens s)) as [|m] eqn:Hlen; [lia|].
      pose proof (removeScreen_last s m Hd Hlen) as Hrm.
      set (s1 := removeScreen (Z.of_nat (S m) - 1) s) in *.
      assert (Hd1 : denseScreens s1).
      { apply denseScreens_lookup. intros i sc Hi. rewrite Hrm in Hi.
        rewrite denseScreens_lookup in Hd. apply Hd.
        apply lookup_take_Some in Hi. by destruct Hi. }
      destruct (IH s1 Hd1) as (s' & Hrun & Hsc & Ht & Hr & Hw & Hwr).
      { rewrite Hrm, length_take. lia. }
      exists s'. split_and!; try done.
      rewrite Hsc, Hrm, take_take. f_equal. lia.
    + exists s. split_and!; try done. by rewrite take_ge by lia.
Qed.

(** [onNumberScreensChanged]: from a screen list whose ids are its slots
    (as the empty list is), a call with a count that is not negative ends
    and leaves exactly the screens with ids 0 to count - 1; the screens
    that stay are the ones that were there, in their slots, and tiles and
    rules are not touched. *)
Theorem onNumberScreensChanged_dense (fuel : nat) (count : Z) (s : St) :
  denseScreens s → 0 <= count →
  Z.abs (count - Z.of_nat (length (screens s))) <= Z.of_nat fuel →
  ∃ s', onNumberScreensChanged fuel count s = Some s' ∧
        map Screen.id (screens s') = map Z.of_nat (seq 0 (Z.to_nat count)) ∧
        take (length (screens s)) (screens s')
        = take (Z.to_nat count) (screens s) ∧
        tiles s' = tiles s ∧ rules s' = rules s ∧
        world s' = world s ∧ writes s' = writes s.
Proof.
  intros Hd Hcount Hfuel. unfold onNumberScreensChanged.
  destruct (addScreensWhile_grows fuel count s)
    as (s1 & -> & Hlen1 & Htake1 & Hd1 & Ht1 & Hr1 & Hw1 & Hwr1); [lia|].
  specialize (Hd1 Hd).
  destruct (removeScreensWhile_shrinks fuel count s1 Hd1 Hcount)
    as (s' & -> & Hsc & Ht & Hr & Hw & Hwr); [lia|].
  exists s'. split_and!; [done| | |congruence..].
  - assert (Hd' : denseScreens s').
    { apply denseScreens_lookup. intros i sc Hi. rewrite Hsc in Hi.
      rewrite denseScreens_lookup in Hd1. apply Hd1.
      apply lookup_take_Some in Hi. by destruct Hi. }
    apply denseScreens_ids; [done|]. rewrite Hsc, length_take. lia.
  - rewrite Hsc, take_take.
    destruct (Z.le_gt_cases count (Z.of_nat (length (screens s)))) as [Hle|Hgt].
    + replace (length (screens s) `min` Z.to_nat count)%nat
        with (Z.to_nat count) by lia.
      rewrite <- Htake1. rewrite take_take. f_equal. lia.
    + replace (length (screens s) `min` Z.to_nat count)%nat
        with (length (screens s)) by lia.
      rewrite Htake1. by rewrite take_ge by lia.
Qed.

(** The removal loop looks for the id [length - 1]: when there are more
    screens than wanted and no screen has that id (the ids are not the
    slots, or the count is negative and the list is empty), no round makes
    progress and [onNumberScreensChanged] never ends. *)
Theorem onNumberScreensChanged_stuck (fuel : nat) (count : Z) (s : St) :
  count < Z.of_nat (length (screens s)) →
  Forall (fun sc => Screen.id sc ≠ Z.of_nat (length (screens s)) - 1) (screens s) →
  onNumberScreensChanged fuel count s = None.
Proof.
  intros Hlt Hall. unfold onNumberScreensChanged.
  assert (Hadd : addScreensWhile fuel count s = Some s).
  { destruct fuel; cbn;
      by destruct (Z.ltb_spec (Z.of_nat (length (screens s))) count); [lia|]. }
  rewrite Hadd. clear Hadd. induction fuel as [|fuel IH]; cbn.
  - by destruct (Z.ltb_spec count (Z.of_nat (length (screens s)))); [|lia].
  - destruct (Z.ltb_spec count (Z.of_nat (length (screens s)))); [|lia].
    unfold removeScreen at 1. by rewrite filter_all, setScreens_same.
Qed.
End ScreenFacts.

(** ** The active screen and its layout *)

Section LayoutFacts.
Context {World : Type} `{Host World}.
Local Abbreviation St := (@St World).

(** [getActiveScreen] reads [workspace.activeClient.screen] first, so it
    raises exactly when no window has the focus.  Then every user command
    raises before anything is read or changed, and so does [cycleLayout],
    while [moveFocus], [moveTile] and [setMaster] called on their own
    return without doing anything: their guard on the focused tile comes
    first.  With a focused window [getActiveScreen] returns: nothing only
    for an empty screen list, otherwise the first screen whose id is the
    id of the focused window's screen, and the screen in slot 0 when no
    screen has that id. *)
Theorem getActiveScreen_needs_focused_window (s : St) :
  (getActiveScreen s = Throw ↔ getActiveClient (world s) = None) ∧
  (getActiveClient (world s) = None →
   (∀ input, handleUserInput input s = (Throw, s)) ∧
   (∀ target, cycleLayout target s = (Throw, s)) ∧
   (∀ step, moveFocus step s = (Ret tt, s)) ∧
   (∀ step, moveTile step s = (Ret tt, s)) ∧
   setMaster s = s) ∧
  (∀ c, getActiveClient (world s) = Some c →
        ∃ active,
          getActiveScreen s = Ret active ∧
          (active = None ↔ screens s = []) ∧
          ∀ i, active = Some i →
               ∃ sc, screens s !! i = Some sc ∧
                     ((Screen.id sc = clientScreen (world s) c ∧
                       ∀ j sc', screens s !! j = Some sc' → (j < i)%nat →
                                Screen.id sc' ≠ clientScreen (world s) c) ∨
                      (i = 0%nat ∧
                       Forall (fun sc' => Screen.id sc' ≠ clientScreen (world s) c)
                              (screens s)))).
Proof.
  split_and!.
  - unfold getActiveScreen. by destruct (getActiveClient (world s)).
  - intros Hnone.
    assert (Hscreen : getActiveScreen s = Throw)
      by (unfold getActiveScreen; by rewrite Hnone).
    assert (Htile : getActiveTile s = None)
      by (unfold getActiveTile; by rewrite Hnone).
    split_and!.
    + intros input. unfold handleUserInput, bind, call. by rewrite Hscreen.
    + intros target. unfold cycleLayout, bind, call. by rewrite Hscreen.
    + intros step. unfold moveFocus. rewrite Htile. by destruct (step =? 0).
    + intros step. unfold moveTile. rewrite Htile. by destruct (step =? 0).
    + unfold setMaster. by rewrite Htile.
  - intros c Hc. unfold getActiveScreen. rewrite Hc. cbv zeta.
    eexists. split; [reflexivity|].
    destruct (list_find _ (screens s)) as [[k sc]|] eqn:Hf.
    + apply list_find_Some in Hf as (Hk & Hid & Hbefore). split.
      * split; [done|]. intros Hnil. by rewrite Hnil in Hk.
      * intros i [= <-]. exists sc. split; [done|]. left. split; [done|eauto].
    + apply list_find_None in Hf. split.
      * destruct (screens s); split; done.
      * intros i Hi. destruct (screens s) as [|sc0 scs] eqn:Hs; [done|].
        injection Hi as <-. exists sc0. split; [done|]. by right.
Qed.

Lemma layoutIndex_bounds (ls : list Layout) (l : LayoutRef) :
  -1 <= layoutIndex ls l < Z.of_nat (length ls).
Proof.
  unfold layoutIndex. destruct l as [| |a]; [lia..|].
  destruct (list_find _ ls) as [[i x]|] eqn:Hf; [|lia].
  apply list_find_Some in Hf as (Hi & _). apply lookup_lt_Some in Hi. lia.
Qed.

(** A forward [cycleLayout] on a screen with a non-empty layout list
    always leaves the screen with a layout of that list, whatever its
    layout was; when the layout it had is not in the list ([null],
    [undefined] or foreign) it lands on the first entry. *)
Theorem cycleLayout_forward_stays_in_list (s : St) (i : nat) (sc : Screen.t) :
  getActiveScreen s = Ret (Some i) →
  screens s !! i = Some sc →
  Screen.layouts sc ≠ [] →
  ∃ l', l' ∈ Screen.layouts sc ∧
        cycleLayout 1 s
        = (Ret tt, setScreens (<[i := Screen.setLayout (LObj l') sc]> (screens s)) s) ∧
        (layoutIndex (Screen.layouts sc) (Screen.layout sc) = -1 →
         Screen.layouts sc !! 0%nat = Some l').
Proof.
  intros Hact Hsc Hne.
  pose proof (layoutIndex_bounds (Screen.layouts sc) (Screen.layout sc)) as Hb.
  set (idx := layoutIndex (Screen.layouts sc) (Screen.layout sc)) in *.
  set (L := Z.of_nat (length (Screen.layouts sc))) in *.
  assert (HL : 0 < L).
  { unfold L. destruct (Screen.layouts sc); [done|cbn; lia]. }
  assert (Hrem : 0 <= Z.rem (idx + 1) L < L) by (apply Z.rem_bound_pos; lia).
  destruct (lookup_lt_is_Some_2 (Screen.layouts sc) (Z.to_nat (Z.rem (idx + 1) L)))
    as [l' Hl']; [lia|].
  assert (Hnext : nextLayoutRef sc 1 = LObj l').
  { unfold nextLayoutRef. fold L idx.
    destruct (Z.eqb_spec L 0); [lia|].
    destruct (Z.ltb_spec (Z.rem (idx + 1) L) 0); [lia|]. by rewrite Hl'. }
  exists l'. split_and!.
  - by eapply list_elem_of_lookup_2.
  - unfold cycleLayout, bind, call. rewrite Hact. do 2 f_equal.
    apply list_eq. intros j. destruct (decide (i = j)) as [->|Hnej].
    + rewrite list_lookup_alter_eq, Hsc.
      rewrite list_lookup_insert_eq by (eapply lookup_lt_Some; eauto).
      cbn. unfold cycleScreen. by rewrite Hnext.
    + by rewrite list_lookup_alter_ne, list_lookup_insert_ne.
  - intros Hm1. rewrite Hm1 in Hl'. cbn in Hl'.
    rewrite Z.rem_0_l in Hl' by lia. exact Hl'.
Qed.

(** A backward [cycleLayout] (target -1) on a screen whose list has no
    repeated entry steps from position [p + 1] to position [p]; from the
    first position of a list of two or more it reads the list at -1 and
    leaves the screen with an undefined layout, and the next [arrange]
    raises. *)
Theorem cycleLayout_backward_falls_off (s : St) (i : nat) (sc : Screen.t)
    (p : nat) (l : Layout) :
  getActiveScreen s = Ret (Some i) →
  screens s !! i = Some sc →
  NoDup (Screen.layouts sc) →
  Screen.layouts sc !! p = Some l →
  Screen.layout sc = LObj l →
  Screen.layout <$> screens (snd (cycleLayout (-1) s)) !! i
  = Some (match p with
          | O => if (length (Screen.layouts sc) =? 1)%nat then LObj l else LUndefined
          | S q => layoutAt sc q
          end) ∧
  (p = 0%nat → (2 <= length (Screen.layouts sc))%nat →
   fst (arrange (snd (cycleLayout (-1) s))) = Throw).
Proof.
  intros Hact Hsc Hnd Hp Hl.
  pose proof (lookup_lt_Some _ _ _ Hp) as Hlt.
  assert (Hfind : layoutIndex (Screen.layouts sc) (Screen.layout sc) = Z.of_nat p).
  { unfold layoutIndex. rewrite Hl.
    assert (Hf : list_find (fun b => b = l) (Screen.layouts sc) = Some (p, l)).
    { apply list_find_Some. split_and!; [done..|].
      intros j y Hj Hjp ->. assert (j = p) by (eapply NoDup_lookup; eauto). lia. }
    by rewrite Hf. }
  assert (Hnext : nextLayoutRef sc (-1)
                  = match p with
                    | O => if (length (Screen.layouts sc) =? 1)%nat
                           then LObj l else LUndefined
                    | S q => layoutAt sc q
                    end).
  { unfold nextLayoutRef. rewrite Hfind.
    set (L := length (Screen.layouts sc)) in *.
    destruct (Z.eqb_spec (Z.of_nat L) 0); [lia|].
    destruct p as [|q].
    - destruct (Nat.eqb_spec L 1) as [HL1|HL1].
      + rewrite HL1.
        change ((Z.of_nat 0 + -1) `rem` Z.of_nat 1) with 0.
        change (0 <? 0) with false. change (Z.to_nat 0) with 0%nat.
        cbv iota. by rewrite Hp.
      + assert (Hr : (Z.of_nat 0 + -1) `rem` Z.of_nat L = -1).
        { change (Z.of_nat 0 + -1) with (Z.opp 1). rewrite Z.rem_opp_l by lia.
          by rewrite Z.rem_small by lia. }
        by rewrite Hr.
    - replace (Z.of_nat (S q) + -1) with (Z.of_nat q) by lia.
      rewrite Z.rem_small by lia.
      destruct (Z.ltb_spec (Z.of_nat q) 0); [lia|].
      rewrite Nat2Z.id. done. }
  assert (Hscreen : screens (snd (cycleLayout (-1) s)) !! i
                    = Some (cycleScreen (-1) sc)).
  { unfold cycleLayout, bind, call. rewrite Hact. cbn [snd screens setScreens].
    by rewrite list_lookup_alter_eq, Hsc. }
  split.
  - rewrite Hscreen. cbn. by rewrite Hnext.
  - intros -> HL.
    destruct (forEachM_arrangeScreen_outcome
                (screens (snd (cycleLayout (-1) s))) (snd (cycleLayout (-1) s)))
      as [[_ Ht]|[Hf _]]; [done|].
    exfalso. rewrite Forall_forall in Hf.
    apply (Hf (cycleScreen (-1) sc)); [by eapply list_elem_of_lookup_2|].
    cbn. rewrite Hnext.
    destruct (Nat.eqb_spec (length (Screen.layouts sc)) 1); [lia|done].
Qed.
End LayoutFacts.

(** ** The driver's visibility rule *)

Section DriverFacts.

(** [isClientVisible] answers true on at most one screen, the window's
    own, and never for a minimized window; a window on all desktops and
    all activities that is not minimized is visible on its screen
    whatever the current desktop and activity are. *)
Theorem isClientVisible_one_screen (ws : KWinDriver.Workspace)
    (client : KWinDriver.Window) :
  (∀ sid, KWinDriver.isClientVisible ws client sid = true →
          sid = KWinDriver.screen client ∧ KWinDriver.minimized client = false) ∧
  (KWinDriver.minimized client = false →
   KWinDriver.desktop client = -1 →
   KWinDriver.activities client = [] →
   ∀ sid, KWinDriver.isClientVisible ws client sid = true ↔
          sid = KWinDriver.screen client).
Proof.
  unfold KWinDriver.isClientVisible. split.
  - intros sid Hv. repeat (apply andb_prop in Hv as [Hv ?]).
    split; [symmetry; by apply Z.eqb_eq|]. by apply negb_true_iff.
  - intros -> -> -> sid. cbn. rewrite orb_true_r. cbn.
    rewrite Z.eqb_eq. split; by intros ->.
Qed.
End DriverFacts.

(** ** Focus movement *)

Section FocusFacts.
Context {World : Type} `{Host World}.
Local Abbreviation St := (@St World).

Lemma addWhileNegative_congruent (fuel : nat) (n len k : Z) :
  0 < len → addWhileNegative fuel n len = Some k → k mod len = n mod len.
Proof.
  intros Hlen. revert n. induction fuel as [|fuel IH]; intros n; cbn;
    destruct (Z.ltb_spec n 0); try done; try (by intros [= ->]).
  intros Hk. rewrite (IH _ Hk).
  replace (n + len) with (n + 1 * len) by lia. by rewrite Z.mod_add by lia.
Qed.

(** [moveFocus] with at least one visible tile on the active screen
    returns and gives the focus to the visible tile at position
    [(k + step) mod N], where [N] is the number of visible tiles and [k]
    the position of the focused tile among them (-1 when it is not
    visible): the focus wraps around at both ends.  [active] is what
    [getActiveScreen] answers, which it does since a tile has the
    focus. *)
Theorem moveFocus_selects (step : Z) (s : St) (ti : nat) (active : option nat) :
  step ≠ 0 →
  getActiveTile s = Some ti →
  getActiveScreen s = Ret active →
  let screen := screenAt s active in
  let visibles := fst (getVisibleTiles screen s) in
  visibles ≠ [] →
  ∃ vi t,
    visibles !! Z.to_nat ((indexOfZ ti visibles + step)
                          mod Z.of_nat (length visibles)) = Some vi ∧
    tiles s !! vi = Some t ∧
    moveFocus step s
    = (Ret tt, setWorld (setActiveClient (Tile.client t) (world s))
                        (snd (getVisibleTiles screen s))).
Proof.
  intros Hstep Hact Hactive. cbv zeta. set (screen := screenAt s active).
  pose proof (getVisibleTiles_eq screen s) as Heq.
  destruct (getVisibleTiles screen s) as [vis s1] eqn:Hg.
  injection Heq as Hvis Hs1. cbn [fst snd]. intros Hne.
  set (N := Z.of_nat (length vis)).
  set (start := indexOfZ ti vis + step).
  assert (HN : 0 < N) by (unfold N; destruct vis; [done|cbn; lia]).
  destruct (addWhileNegative_ends (Z.to_nat (- start)) start N HN)
    as (k & Hk & Hk0 & _); [lia|].
  pose proof (addWhileNegative_congruent _ _ _ _ HN Hk) as Hcong.
  assert (Hrem : Z.rem k N = start mod N)
    by (rewrite Z.rem_mod_nonneg by lia; done).
  assert (Hpos : 0 <= start mod N < N) by (apply Z.mod_pos_bound; lia).
  destruct (lookup_lt_is_Some_2 vis (Z.to_nat (start mod N))) as [vi Hvi];
    [unfold N in *; lia|].
  assert (Hin : vi ∈ vis) by (by eapply list_elem_of_lookup_2).
  rewrite Hvis in Hin.
  apply list_elem_of_filter in Hin as [_ Hin]. unfold allTiles in Hin.
  apply elem_of_seq in Hin.
  destruct (lookup_lt_is_Some_2 (tiles s) vi) as [t Ht]; [lia|].
  exists vi, t. split_and!; [done..|].
  unfold moveFocus. destruct (Z.eqb_spec step 0); [done|]. rewrite Hact.
  unfold bind, call. rewrite Hactive.
  fold screen. rewrite Hg. fold start N. rewrite Hk.
  destruct (Z.eqb_spec N 0); [lia|].
  rewrite Hrem, Hvi. cbn [mbind option_bind].
  assert (Ht1 : tiles s1 !! vi = Some (markFault (world s) screen t)).
  { rewrite Hs1. cbn [tiles setTiles]. change (map ?f ?l) with (f <$> l).
    by rewrite list_lookup_fmap, Ht. }
  rewrite Ht1, markFault_client. by rewrite Hs1.
Qed.

(** With no visible tile on the active screen [moveFocus] does not come
    back with a new focus: a backward step never leaves its [while] loop
    and a forward step raises. *)
Theorem moveFocus_nothing_visible (step : Z) (s : St) (ti : nat)
    (active : option nat) :
  getActiveTile s = Some ti →
  getActiveScreen s = Ret active →
  fst (getVisibleTiles (screenAt s active) s) = [] →
  (step < 0 → fst (moveFocus step s) = Diverge) ∧
  (0 < step → fst (moveFocus step s) = Throw).
Proof.
  intros Hact Hactive Hnil. unfold moveFocus, bind, call. rewrite Hact, Hactive.
  destruct (getVisibleTiles _ s) as [vis s1]. cbn [fst] in Hnil. subst vis.
  cbn [length indexOfZ list_find]. split; intros Hs.
  - destruct (Z.eqb_spec step 0); [lia|].
    change (indexOfZ ti []) with (-1).
    by rewrite addWhileNegative_stuck by lia.
  - destruct (Z.eqb_spec step 0); [lia|].
    change (indexOfZ ti []) with (-1).
    destruct (Z.to_nat (- (-1 + step))); cbn;
      by destruct (Z.ltb_spec (-1 + step) 0); [lia|].
Qed.
End FocusFacts.

(** ** Reordering *)

Section ReorderFacts.
Context {World : Type} `{Host World}.
Local Abbreviation St := (@St World).

(** A walk of [moveTile] that meets no visible tile only marks the tiles
    whose check faulted. *)
Lemma moveTileLoop_none_visible (visit : list nat) (screen : option Screen.t)
    (dir : Z) (idx : nat) (step : Z) (s : St) :
  Forall (fun i => ∃ t, tiles s !! i = Some t ∧ visibleOn (world s) screen t = false)
         visit →
  moveTileLoop visit screen dir idx step s
  = foldl (fun a i => updTile i (markFault (world s) screen) a) s visit.
Proof.
  revert s. induction visit as [|i visit IH]; intros s Hall; [done|].
  inversion Hall as [|? ? (t & Ht & Hv) Hrest]; subst. cbn [moveTileLoop foldl].
  rewrite (isTileVisible_eq i screen s t Ht), Hv.
  set (s1 := updTile i (markFault (world s) screen) s).
  rewrite (IH s1); [done|].
  eapply Forall_impl; [exact Hrest|]. intros k (u & Hu & Hvu).
  unfold s1, updTile. cbn [tiles setTiles world].
  destruct (decide (i = k)) as [->|Hne].
  - rewrite list_lookup_alter_eq, Hu. eexists. split; [done|].
    by rewrite visibleOn_markFault.
  - rewrite list_lookup_alter_ne by done. eauto.
Qed.

(** ShiftUp and ShiftDown do not wrap around: when no tile before (after)
    the focused one is visible on the active screen, [moveTile] leaves
    every tile in its slot and only marks the tiles it checked whose check
    faulted, so the order of the windows is unchanged.  [active] is what
    [getActiveScreen] answers, which it does since a tile has the
    focus. *)
Theorem moveTile_at_edge_keeps_order (s : St) (idx : nat) (active : option nat) :
  let w := world s in
  let screen := screenAt s active in
  getActiveTile s = Some idx →
  getActiveScreen s = Ret active →
  (Forall (fun t => visibleOn w screen t = false) (take idx (tiles s)) →
   moveTile (-1) s
   = (Ret tt,
      setTiles (map (markFault w screen) (take idx (tiles s)) ++ drop idx (tiles s)) s) ∧
   clients (snd (moveTile (-1) s)) = clients s) ∧
  (Forall (fun t => visibleOn w screen t = false) (drop (S idx) (tiles s)) →
   moveTile 1 s
   = (Ret tt,
      setTiles (take (S idx) (tiles s)
                ++ map (markFault w screen) (drop (S idx) (tiles s))) s) ∧
   clients (snd (moveTile 1 s)) = clients s).
Proof.
  intros w screen Hact Hactive.
  pose proof Hact as Hf.
  apply getActiveTile_Some in Hf as (c & _ & Hf).
  apply getTileByClient_Some in Hf as (T & HT & _).
  pose proof (lookup_lt_Some _ _ _ HT) as Hlt.
  assert (Hcl : ∀ a b : list Tile.t,
            map Tile.client (map (markFault w screen) a ++ b)
            = map Tile.client (a ++ b)).
  { intros a b. rewrite !map_app, map_map. f_equal.
    apply map_ext. intros t. apply markFault_client. }
  split; intros Hinv.
  - assert (Hmove : moveTile (-1) s
                    = (Ret tt,
                       setTiles (map (markFault w screen) (take idx (tiles s))
                                 ++ drop idx (tiles s)) s)).
    { unfold moveTile, bind, call. rewrite Hact, Hactive.
      cbn [Z.eqb Z.ltb Z.compare]. fold screen. f_equal.
      rewrite moveTileLoop_none_visible.
      - rewrite foldl_updTile. fold w. f_equal.
        pose proof (marks_descending (markFault w screen) (take idx (tiles s)) []
                      (drop idx (tiles s))) as Hm.
        cbn [app length] in Hm. rewrite take_drop, length_take in Hm.
        by replace (idx `min` length (tiles s))%nat with idx in Hm by lia.
      - apply Forall_forall. intros k Hk.
        apply list_elem_of_In, in_rev, list_elem_of_In, elem_of_seq in Hk.
        destruct (lookup_lt_is_Some_2 (tiles s) k) as [t Ht]; [lia|].
        exists t. split; [done|]. rewrite Forall_forall in Hinv. apply Hinv.
        apply list_elem_of_lookup. exists k. rewrite lookup_take_lt by lia. done. }
    split; [done|]. rewrite Hmove. unfold clients. cbn [snd tiles setTiles].
    by rewrite Hcl, take_drop.
  - assert (Hmove : moveTile 1 s
                    = (Ret tt,
                       setTiles (take (S idx) (tiles s)
                                 ++ map (markFault w screen) (drop (S idx) (tiles s)))
                         s)).
    { unfold moveTile, bind, call. rewrite Hact, Hactive.
      cbn [Z.eqb Z.ltb Z.compare]. fold screen. f_equal.
      rewrite moveTileLoop_none_visible.
      - rewrite foldl_updTile. fold w. f_equal.
        pose proof (marks_ascending (markFault w screen) (drop (S idx) (tiles s))
                      (take (S idx) (tiles s)) []) as Hm.
        rewrite !app_nil_r, take_drop, length_take, length_drop in Hm.
        by replace (S idx `min` length (tiles s))%nat with (S idx) in Hm by lia.
      - apply Forall_forall. intros k Hk. apply elem_of_seq in Hk.
        destruct (lookup_lt_is_Some_2 (tiles s) k) as [t Ht]; [lia|].
        exists t. split; [done|]. rewrite Forall_forall in Hinv. apply Hinv.
        apply list_elem_of_lookup. exists (k - S idx)%nat.
        rewrite lookup_drop. by replace (S idx + (k - S idx))%nat with k by lia. }
    split; [done|]. rewrite Hmove. unfold clients. cbn [snd tiles setTiles].
    rewrite !map_app, map_map.
    rewrite (map_ext _ Tile.client (fun t => markFault_client w screen t)).
    by rewrite <- map_app, take_drop.
Qed.

Lemma setMaster_only_tiles (s : St) : setMaster s = setTiles (tiles (setMaster s)) s.
Proof.
  unfold setMaster. destruct (getActiveTile s) as [idx|]; [|by destruct s].
  destruct (tiles s !! idx); [|by destruct s].
  destruct (idx =? 0)%nat; by destruct s.
Qed.

(** After [setMaster] the focused window's tile is the one in slot 0, and
    a second [setMaster] changes nothing. *)
Theorem setMaster_idempotent (s : St) :
  setMaster (setMaster s) = setMaster s ∧
  (∀ idx, getActiveTile s = Some idx → getActiveTile (setMaster s) = Some 0%nat).
Proof.
  assert (Hfirst : ∀ idx, getActiveTile s = Some idx →
                          getActiveTile (setMaster s) = Some 0%nat).
  { intros idx Hact.
    pose proof Hact as Hf.
    apply getActiveTile_Some in Hf as (c & Hfocus & Hf).
    apply getTileByClient_Some in Hf as (T & HT & Hc & _).
    rewrite setMaster_only_tiles, (setMaster_tiles s idx T Hact HT).
    unfold getActiveTile, getTileByClient. cbn [tiles setTiles world].
    rewrite Hfocus. cbn [mbind option_bind list_find].
    by destruct (decide (Tile.client T = c)). }
  split; [|done].
  destruct (getActiveTile s) as [idx|] eqn:Hact.
  - pose proof (Hfirst idx eq_refl) as H0.
    unfold setMaster at 1. rewrite H0.
    by destruct (tiles (setMaster s) !! 0%nat).
  - assert (Hs : setMaster s = s) by (unfold setMaster; by rewrite Hact).
    by rewrite !Hs.
Qed.
End ReorderFacts.

(** ** What a user command keeps *)

Section InputFacts.
Context {World : Type} `{Host World}.
Local Abbreviation St := (@St World).

Lemma insert_as_delete {A} (l : list A) (i : nat) (z : A) :
  (i < length l)%nat → <[i := z]> l ≡ₚ z :: delete i l.
Proof.
  intros Hi. rewrite insert_take_drop, delete_take_drop by done.
  symmetry. apply Permutation_middle.
Qed.

(** Exchanging two slots of an array permutes it. *)
Lemma insert_swap_Permutation {A} (l : list A) (i j : nat) (x y : A) :
  l !! i = Some x → l !! j = Some y →
  <[j := x]> (<[i := y]> l) ≡ₚ l.
Proof.
  intros Hi Hj. pose proof (lookup_lt_Some _ _ _ Hi) as Hli.
  pose proof (lookup_lt_Some _ _ _ Hj) as Hlj.
  destruct (decide (i = j)) as [->|Hne].
  - rewrite list_insert_insert_eq. by rewrite list_insert_id.
  - set (l1 := <[i := y]> l).
    assert (Hj1 : l1 !! j = Some y)
      by (unfold l1; by rewrite list_lookup_insert_ne).
    assert (Hd : delete j l1 ≡ₚ delete i l).
    { apply (Permutation_cons_inv (a := y)).
      rewrite <- (delete_Permutation l1 j y Hj1). unfold l1.
      by apply insert_as_delete. }
    rewrite (insert_as_delete l1 j x) by (unfold l1; by rewrite length_insert).
    rewrite Hd. symmetry. by apply delete_Permutation.
Qed.

Lemma keepsWindows_refl (s : St) : keepsWindows s s.
Proof. by split_and!. Qed.

Lemma keepsWindows_trans (a b c : St) :
  keepsWindows a b → keepsWindows b c → keepsWindows a c.
Proof.
  intros (Hc1 & Hr1 & Hi1 & Hl1) (Hc2 & Hr2 & Hi2 & Hl2).
  split_and!; [by rewrite Hc2|congruence..].
Qed.

Lemma arranged_keepsWindows (s s' : St) : arranged s s' → keepsWindows s s'.
Proof.
  intros Ha. pose proof (arranged_clients _ _ Ha) as Hc.
  destruct Ha as [Hs Hr _ _ _]. split_and!; [by rewrite Hc|done|by rewrite Hs..].
Qed.

Lemma keepsWindows_swapTiles (a b : nat) (s : St) : keepsWindows s (swapTiles a b s).
Proof.
  unfold swapTiles. destruct (tiles s !! a) as [x|] eqn:Ha; [|apply keepsWindows_refl].
  destruct (tiles s !! b) as [y|] eqn:Hb; [|apply keepsWindows_refl].
  split_and!; [|done..]. unfold clients. cbn [tiles setTiles].
  change (map ?f ?l) with (f <$> l).
  by rewrite (insert_swap_Permutation (tiles s) a b x y Ha Hb).
Qed.

Lemma keepsWindows_moveTileLoop (visit : list nat) (screen : option Screen.t)
    (dir : Z) (idx : nat) (step : Z) (s : St) :
  keepsWindows s (moveTileLoop visit screen dir idx step s).
Proof.
  revert idx step s. induction visit as [|i visit IH]; intros idx step s;
    [apply keepsWindows_refl|].
  cbn [moveTileLoop].
  pose proof (arranged_keepsWindows _ _ (arranged_isTileVisible i screen s)) as H1.
  destruct (isTileVisible i screen s) as [v s1]. cbn [snd] in H1.
  destruct v.
  - pose proof (keepsWindows_swapTiles idx i s1) as H2.
    destruct (step - dir =? 0); eauto using keepsWindows_trans.
  - eauto using keepsWindows_trans.
Qed.

Lemma keepsWindows_moveTile (step : Z) (s : St) :
  keepsWindows s (snd (moveTile step s)).
Proof.
  unfold moveTile, bind, call. destruct (step =? 0); [apply keepsWindows_refl|].
  destruct (getActiveTile s); [|apply keepsWindows_refl].
  destruct (getActiveScreen s) as [active| |]; [|apply keepsWindows_refl..].
  cbn [snd]. destruct (0 <? step); apply keepsWindows_moveTileLoop.
Qed.

Lemma keepsWindows_setMaster (s : St) : keepsWindows s (setMaster s).
Proof.
  destruct (getActiveTile s) as [idx|] eqn:Hact.
  - pose proof Hact as Hf.
    apply getActiveTile_Some in Hf as (c & _ & Hf).
    apply getTileByClient_Some in Hf as (T & HT & _).
    rewrite setMaster_only_tiles, (setMaster_tiles s idx T Hact HT).
    split_and!; [|done..]. unfold clients. cbn [tiles setTiles].
    change (map ?f ?l) with (f <$> l).
    by rewrite <- (delete_Permutation (tiles s) idx T HT).
  - unfold setMaster. rewrite Hact. apply keepsWindows_refl.
Qed.

Lemma keepsWindows_setFloatAt (i : nat) (v : FloatValue) (g : option Rect.t) (s : St) :
  keepsWindows s (setFloatAt i v g s).
Proof.
  unfold setFloatAt. destruct (tiles s !! i) as [t|] eqn:Hi; [|apply keepsWindows_refl].
  pose proof (setFloat_client t v g s) as Hc.
  pose proof (setFloat_tiles t v g s) as Ht.
  pose proof (setFloat_lists t v g s) as Hs.
  assert (Hr : rules (snd (setFloat t v g s)) = rules s).
  { unfold setFloat. destruct v as [b|].
    - destruct (Bool.eqb _ _); [done|]. by destruct b.
    - by destruct (negb _). }
  destruct (setFloat t v g s) as [t' s1]. cbn [fst snd] in *.
  split_and!; [|done|by rewrite <- Hs..].
  unfold clients, updTile. cbn [tiles setTiles]. rewrite Ht.
  assert (Heq : map Tile.client (alter (fun _ => t') i (tiles s))
                = map Tile.client (tiles s)); [|by rewrite Heq].
  change (map ?f ?l) with (f <$> l). apply list_eq. intros j.
  rewrite !list_lookup_fmap. destruct (decide (i = j)) as [->|Hne].
  - rewrite list_lookup_alter_eq, Hi. cbn. by rewrite Hc.
  - by rewrite list_lookup_alter_ne.
Qed.

Lemma keepsWindows_cycleLayout (target : Z) (s : St) :
  keepsWindows s (snd (cycleLayout target s)).
Proof.
  unfold cycleLayout, bind, call.
  destruct (getActiveScreen s) as [[i|]| |]; [|apply keepsWindows_refl..].
  cbn [snd]. split_and!; [done..| |];
    cbn [screens setScreens]; change (map ?f ?l) with (f <$> l);
    apply list_eq; intros j; rewrite !list_lookup_fmap;
    (destruct (decide (i = j)) as [->|Hne];
     [rewrite list_lookup_alter_eq; by destruct (screens s !! j)
     |by rewrite list_lookup_alter_ne]).
Qed.

Lemma arranged_moveFocus (step : Z) (s : St) : arranged s (snd (moveFocus step s)).
Proof.
  unfold moveFocus, bind, call. destruct (step =? 0); [apply arranged_refl|].
  destruct (getActiveTile s); [|apply arranged_refl].
  destruct (getActiveScreen s) as [active| |]; [|apply arranged_refl..].
  pose proof (arranged_filterSt
                (fun i => isTileVisible i (screenAt s active))
                (allTiles s) s (fun i a => arranged_isTileVisible i _ a)) as H1.
  fold (getVisibleTiles (screenAt s active) s) in H1.
  destruct (getVisibleTiles _ s) as [vis s1]. cbn [snd] in H1.
  destruct (addWhileNegative _ _ _); [|done].
  destruct (_ =? 0); [done|].
  destruct (_ ≫= _); [|done].
  eapply arranged_trans; [exact H1|apply arranged_setWorld].
Qed.

Lemma keepsWindows_bind_arrange (m : M unit) (s : St) :
  keepsWindows s (snd (m s)) →
  keepsWindows s (snd (bind m (fun _ => arrange) s)).
Proof.
  intros Hm. unfold bind. destruct (m s) as [[[]| |] s1]; cbn [snd] in *; [|done..].
  eapply keepsWindows_trans; [exact Hm|].
  apply arranged_keepsWindows, arranged_arrange.
Qed.

(** No user command creates, drops or duplicates a tile: after
    [handleUserInput], whatever the input, the host and the way the call
    ends, the tiles are for the same windows as before (up to order), and
    the rules, the screen ids and the screens' layout lists are as they
    were. *)
Theorem handleUserInput_keeps_windows (input : UserInput) (s : St) :
  clients (snd (handleUserInput input s)) ≡ₚ clients s ∧
  length (tiles (snd (handleUserInput input s))) = length (tiles s) ∧
  rules (snd (handleUserInput input s)) = rules s ∧
  map Screen.id (screens (snd (handleUserInput input s))) = map Screen.id (screens s) ∧
  map Screen.layouts (screens (snd (handleUserInput input s)))
  = map Screen.layouts (screens s).
Proof.
  assert (Hk : keepsWindows s (snd (handleUserInput input s))).
  { unfold handleUserInput. unfold bind at 1. unfold call.
    destruct (getActiveScreen s) as [active| |]; [|apply keepsWindows_refl..].
    destruct (screenAt s active) as [screen|]; [|apply keepsWindows_refl].
    destruct (Screen.layout screen) as [| |l]; [apply keepsWindows_refl..|].
    destruct (layoutHandleUserInput l input (world s)) as [overriden w1].
    assert (H0 : keepsWindows s (setWorld w1 s)) by (by split_and!).
    eapply keepsWindows_trans; [exact H0|].
    destruct overriden; [apply arranged_keepsWindows, arranged_arrange|].
    apply keepsWindows_bind_arrange.
    destruct input; cbn [lift ret snd];
      try apply keepsWindows_refl;
      try apply keepsWindows_moveTile;
      try apply keepsWindows_setMaster;
      try apply keepsWindows_cycleLayout;
      try (apply arranged_keepsWindows, arranged_moveFocus).
    destruct (getActiveTile (setWorld w1 s));
      [apply keepsWindows_setFloatAt|apply keepsWindows_refl]. }
  destruct Hk as (Hc & Hr & Hi & Hl). split_and!; try done.
  apply Permutation_length in Hc. unfold clients in Hc.
  by rewrite !length_map in Hc.
Qed.

(** ** Counters and targets in an arrange pass *)

Lemma counterNotRaised_refl (t : Tile.t) : counterNotRaised t t.
Proof. split; [done|by right]. Qed.

Lemma counterNotRaised_trans (a b c : Tile.t) :
  counterNotRaised a b → counterNotRaised b c → counterNotRaised a c.
Proof.
  intros [Hc1 H1] [Hc2 H2]. split; [congruence|].
  destruct H2 as [?|H2]; [by left|]. destruct H1 as [H1|H1]; [left|right]; congruence.
Qed.

Lemma countersNotRaised_refl (s : St) : countersNotRaised s s.
Proof.
  split.
  - induction (tiles s); constructor; auto using counterNotRaised_refl.
  - exists []. by split.
Qed.

Lemma countersNotRaised_trans (a b c : St) :
  countersNotRaised a b → countersNotRaised b c → countersNotRaised a c.
Proof.
  intros [Ht1 (n1 & Hw1 & Hf1)] [Ht2 (n2 & Hw2 & Hf2)]. split.
  - clear -Ht1 Ht2. revert Ht2. generalize (tiles c).
    induction Ht1; intros k Hk; inversion Hk; subst; constructor;
      eauto using counterNotRaised_trans.
  - exists (n2 ++ n1). split; [by rewrite Hw2, Hw1, app_assoc|].
    by apply Forall_app.
Qed.

Lemma countersNotRaised_setWorld (w : World) (s : St) :
  countersNotRaised s (setWorld w s).
Proof. exact (countersNotRaised_refl s). Qed.

Lemma countersNotRaised_updTile (f : Tile.t → Tile.t) (i : nat) (s : St) :
  (∀ t, counterNotRaised t (f t)) → countersNotRaised s (updTile i f s).
Proof.
  intros Hf. split; [|exists []; by split].
  unfold updTile. cbn [tiles setTiles].
  apply Forall2_same_length_lookup. split; [by rewrite length_alter|].
  intros j x y Hx Hy. destruct (decide (i = j)) as [->|Hne].
  - rewrite list_lookup_alter_eq, Hx in Hy. simplify_eq/=. apply Hf.
  - rewrite list_lookup_alter_ne in Hy by done. simplify_eq.
    apply counterNotRaised_refl.
Qed.

Lemma countersNotRaised_filterSt (p : nat → St → bool * St) (xs : list nat) (s : St) :
  (∀ i a, countersNotRaised a (snd (p i a))) →
  countersNotRaised s (snd (filterSt p xs s)).
Proof.
  intros Hp. revert s. induction xs as [|i xs IH]; intros s;
    [apply countersNotRaised_refl|].
  simpl. specialize (Hp i s). destruct (p i s) as [b s1]. simpl in Hp.
  specialize (IH s1). destruct (filterSt p xs s1) as [ys s2]. simpl in *.
  eauto using countersNotRaised_trans.
Qed.

Lemma countersNotRaised_foldl {A} (f : St → A → St) (xs : list A) (s : St) :
  (∀ x a, countersNotRaised a (f a x)) →
  countersNotRaised s (foldl f s xs).
Proof.
  intros Hf. revert s. induction xs as [|x xs IH]; intros s;
    [apply countersNotRaised_refl|].
  simpl. eauto using countersNotRaised_trans.
Qed.

Lemma countersNotRaised_isTileVisible (i : nat) (screen : option Screen.t) (s : St) :
  countersNotRaised s (snd (isTileVisible i screen s)).
Proof.
  assert (Hmark : countersNotRaised s (updTile i (Tile.setIsError true) s)).
  { apply countersNotRaised_updTile. intros t. split; [done|by right]. }
  unfold isTileVisible. destruct (tiles s !! i); [|apply countersNotRaised_refl].
  destruct screen as [sc|]; [|done].
  destruct (isClientVisible _ _ _); [apply countersNotRaised_refl|done].
Qed.

Lemma countersNotRaised_notFullScreen (i : nat) (s : St) :
  countersNotRaised s (snd (notFullScreen i s)).
Proof.
  unfold notFullScreen. destruct (tiles s !! i); [|apply countersNotRaised_refl].
  destruct (isClientFullScreen _ _);
    [apply countersNotRaised_setWorld|apply countersNotRaised_refl].
Qed.

Lemma countersNotRaised_applyUpdated (i : nat) (s : St) :
  countersNotRaised s (applyTileGeometry i true s).
Proof.
  unfold applyTileGeometry. destruct (tiles s !! i) as [t|]; [|apply countersNotRaised_refl].
  assert (H0 : countersNotRaised s (updTile i (Tile.setArrangeCount 0%N) s)).
  { apply countersNotRaised_updTile. intros u. split; [done|by left]. }
  destruct (Rect.eqb _ _); [done|].
  change (5 <? 0)%N with false. cbv iota.
  eapply countersNotRaised_trans; [exact H0|].
  split; [exact (proj1 (countersNotRaised_refl _))|].
  exists [mkWrite (Tile.setArrangeCount 0%N t)
            (Tile.geometry (Tile.setArrangeCount 0%N t))].
  split; [done|]. by repeat constructor.
Qed.

Lemma countersNotRaised_arrangeScreen (screen : Screen.t) (s : St) :
  countersNotRaised s (snd (arrangeScreen screen s)).
Proof.
  unfold arrangeScreen.
  pose proof (countersNotRaised_filterSt (fun i => isTileVisible i (Some screen))
                (allTiles s) s (fun i a => countersNotRaised_isTileVisible i _ a)) as H1.
  fold (getVisibleTiles (Some screen) s) in H1.
  destruct (getVisibleTiles (Some screen) s) as [vis s1]. simpl in H1.
  pose proof (countersNotRaised_filterSt notFullScreen vis s1
                countersNotRaised_notFullScreen) as H2.
  destruct (filterSt notFullScreen vis s1) as [visibles s2]. simpl in H2.
  assert (H12 : countersNotRaised s s2) by eauto using countersNotRaised_trans.
  destruct (Screen.layout screen) as [| |l]; simpl;
    [apply countersNotRaised_refl|done|].
  eapply countersNotRaised_trans; [exact H12|].
  eapply countersNotRaised_trans; [|apply countersNotRaised_foldl].
  - eapply countersNotRaised_trans; [|apply countersNotRaised_foldl].
    + unfold applyLayout. destruct (layoutApply l _ _ (world s2)) as [rs w1].
      eapply countersNotRaised_trans; [apply (countersNotRaised_setWorld w1)|].
      apply countersNotRaised_foldl. intros [i r] a.
      apply countersNotRaised_updTile. intros t. split; [done|by right].
    + intros i a. eapply countersNotRaised_trans;
        [apply countersNotRaised_applyUpdated|].
      unfold keepBelowAt.
      destruct (tiles _ !! i);
        [apply countersNotRaised_setWorld|apply countersNotRaised_refl].
  - intros i a. unfold keepAboveAt.
    destruct (tiles a !! i);
      [apply countersNotRaised_setWorld|apply countersNotRaised_refl].
Qed.

Lemma countersNotRaised_forEachM (xs : list Screen.t) (s : St) :
  countersNotRaised s (snd (forEachM arrangeScreen xs s)).
Proof.
  revert s. induction xs as [|x xs IH]; intros s; [apply countersNotRaised_refl|].
  simpl. unfold bind. pose proof (countersNotRaised_arrangeScreen x s) as Hb.
  destruct (arrangeScreen x s) as [[[]| |] s1]; simpl in *; [|done..].
  eauto using countersNotRaised_trans.
Qed.

(** The loop guard never stops an arrange pass.  [arrange] never raises a
    retry counter: each tile comes out with the counter it had or with
    zero; and every geometry write it issues sends the tile's own target
    with that tile's counter at zero. *)
Theorem arrange_never_raises_counters (s : St) :
  (∀ i t, tiles s !! i = Some t →
          ∃ t', tiles (snd (arrange s)) !! i = Some t' ∧
                (Tile.arrangeCount t' = 0%N ∨
                 Tile.arrangeCount t' = Tile.arrangeCount t)) ∧
  ∃ new, writes (snd (arrange s)) = new ++ writes s ∧
         ∀ w, w ∈ new →
              wrect w = Tile.geometry (wtile w) ∧
              Tile.arrangeCount (wtile w) = 0%N.
Proof.
  destruct (countersNotRaised_forEachM (screens s) s) as [Ht (new & Hw & Hf)].
  fold (arrange s) in Ht, Hw. split.
  - intros i t Hi.
    destruct (Forall2_lookup_l _ _ _ _ _ Ht Hi) as (t' & Hi' & _ & Hc). eauto.
  - exists new. split; [done|]. intros w Hin. rewrite Forall_forall in Hf.
    exact (Hf w Hin).
Qed.
End InputFacts.

(** ** The further statements on concrete states *)

Section MoreInstances.
Import Sim Examples MoreExamples.
Local Open Scope nat_scope.

Lemma setClientFloat_touches_one_tile_witness :
  tiles (setClientFloat 3 FToggle (Rect.mk 5 5 50 50) fourTiles)
  = <[2 := fst (setFloat (tileOf 3) FToggle (Some (Rect.mk 5 5 50 50)) fourTiles)]>
      (tiles fourTiles) ∧
  clients (setClientFloat 3 FToggle (Rect.mk 5 5 50 50) fourTiles) = clients fourTiles ∧
  writes (setClientFloat 3 FToggle (Rect.mk 5 5 50 50) fourTiles)
  = writes (snd (setFloat (tileOf 3) FToggle (Some (Rect.mk 5 5 50 50)) fourTiles)).
Proof.
  apply (proj2 (setClientFloat_touches_one_tile 3 FToggle (Rect.mk 5 5 50 50) fourTiles)
           2 (tileOf 3)); reflexivity.
Defined.

Lemma manageClient_accepts_witness :
  clients (snd (manageClient 9 fresh)) = clients fresh ++ [9] ∧
  (∃ t', tiles (snd (manageClient 9 fresh)) !! length (tiles fresh) = Some t' ∧
         Tile.client t' = 9 ∧
         Tile.floating t'
         = existsb (fun r => Rule.matches (getClientClassName (world fresh) 9) r
                             && Rule.floating r) (rules fresh)) ∧
  (fst (manageClient 9 fresh) = Ret true ∨ fst (manageClient 9 fresh) = Throw) ∧
  (Forall (fun sc => Screen.layout sc ≠ LUndefined) (screens fresh) →
   fst (manageClient 9 fresh) = Ret true).
Proof.
  apply manageClient_accepts. intros r Hin. vm_compute in Hin. inversion Hin.
Defined.

Lemma lookup_after_manageClient_witness :
  getTileByClient 1 (snd (manageClient 1 fresh)) = Some 0.
Proof.
  apply (proj1 (lookup_after_manageClient 1 fresh) 0). reflexivity.
Defined.

Lemma unmanageClient_forgets_window_witness :
  clients (snd (unmanageClient 9 fourTiles)) = clients fourTiles.
Proof.
  apply (proj2 (unmanageClient_forgets_window 9 fourTiles)).
  - vm_compute. intros Hin.
    repeat (inversion Hin as [|? ? ? Hin']; subst; clear Hin; rename Hin' into Hin).
  - repeat constructor.
Defined.

Lemma arrangeClient_converged_witness :
  arrangeClient 1 converged
  = setTiles (<[0 := Tile.setArrangeCount 0%N (tileOf 1)]> (tiles converged)) converged.
Proof. apply arrangeClient_converged; reflexivity. Defined.

Lemma removeScreen_undoes_addScreen_witness :
  removeScreen 7 fresh = fresh ∧
  screens (removeScreen 7 (addScreen 7 fresh)) = screens fresh.
Proof.
  apply (proj2 (removeScreen_undoes_addScreen 7 fresh)).
  repeat constructor. vm_compute. discriminate.
Defined.

Lemma onNumberScreensChanged_dense_witness :
  ∃ s', onNumberScreensChanged 3 3 empty = Some s' ∧
        map Screen.id (screens s') = map Z.of_nat (seq 0 (Z.to_nat 3)) ∧
        take (length (screens empty)) (screens s')
        = take (Z.to_nat 3) (screens empty) ∧
        tiles s' = tiles empty ∧ rules s' = rules empty ∧
        world s' = world empty ∧ writes s' = writes empty.
Proof.
  apply onNumberScreensChanged_dense; [reflexivity|lia|vm_compute; discriminate].
Defined.

Lemma onNumberScreensChanged_stuck_witness :
  onNumberScreensChanged 100 0 strayScreen = None.
Proof.
  apply onNumberScreensChanged_stuck; [vm_compute; reflexivity|].
  repeat constructor. vm_compute. discriminate.
Defined.

Lemma cycleLayout_forward_stays_in_list_witness :
  ∃ l', l' ∈ Screen.layouts screen0 ∧
        cycleLayout 1 fresh
        = (Ret tt, setScreens (<[0 := Screen.setLayout (LObj l') screen0]> (screens fresh))
                     fresh) ∧
        (layoutIndex (Screen.layouts screen0) (Screen.layout screen0) = (-1)%Z →
         Screen.layouts screen0 !! 0 = Some l').
Proof.
  apply cycleLayout_forward_stays_in_list; [reflexivity..|discriminate].
Defined.

Lemma cycleLayout_backward_falls_off_witness :
  Screen.layout <$> screens (snd (cycleLayout (-1) fresh)) !! 0 = Some LUndefined ∧
  (0 = 0 → 2 <= length (Screen.layouts screen0) →
   fst (arrange (snd (cycleLayout (-1) fresh))) = Throw).
Proof.
  apply (cycleLayout_backward_falls_off fresh 0 screen0 0 10); try reflexivity.
  apply (bool_decide_unpack _). vm_compute. exact I.
Defined.

Lemma isClientVisible_one_screen_witness :
  KWinDriver.isClientVisible workspace stickyWindow 1 = true ∧
  (KWinDriver.isClientVisible workspace stickyWindow 0 = true → 0%Z = 1%Z).
Proof.
  pose proof (proj2 (isClientVisible_one_screen workspace stickyWindow)
                eq_refl eq_refl eq_refl) as Hv.
  split; [by apply Hv|apply Hv].
Defined.

Lemma moveFocus_selects_witness :
  ∃ vi t,
    fst (getVisibleTiles (Some screen0) fourTiles)
      !! Z.to_nat ((indexOfZ 2 (fst (getVisibleTiles (Some screen0) fourTiles)) + 1)
                   mod Z.of_nat (length (fst (getVisibleTiles (Some screen0)
                                                fourTiles)))) = Some vi ∧
    tiles fourTiles !! vi = Some t ∧
    moveFocus 1 fourTiles
    = (Ret tt, setWorld (setActiveClient (Tile.client t) (world fourTiles))
                 (snd (getVisibleTiles (Some screen0) fourTiles))).
Proof.
  apply (moveFocus_selects 1 fourTiles 2 (Some 0));
    [discriminate|reflexivity|reflexivity|].
  vm_compute. discriminate.
Defined.

Lemma moveFocus_nothing_visible_witness :
  ((-1 < 0)%Z → fst (moveFocus (-1) nothingVisible) = Diverge) ∧
  ((0 < -1)%Z → fst (moveFocus (-1) nothingVisible) = Throw).
Proof.
  apply (moveFocus_nothing_visible (-1) nothingVisible 0 (Some 0)); reflexivity.
Defined.

Lemma moveTile_at_edge_keeps_order_witness :
  clients (snd (moveTile (-1) edgeTiles)) = clients edgeTiles.
Proof.
  refine (proj2 (proj1 (moveTile_at_edge_keeps_order (H := Sim.host) edgeTiles 1
                          (Some 0) _ _) _));
    [reflexivity..|].
  vm_compute. repeat constructor.
Defined.

Lemma getActiveScreen_needs_focused_window_witness :
  (∀ input, handleUserInput input noFocus = (Throw, noFocus)) ∧
  (∀ target, cycleLayout target noFocus = (Throw, noFocus)) ∧
  (∀ step, moveFocus step noFocus = (Ret tt, noFocus)) ∧
  (∀ step, moveTile step noFocus = (Ret tt, noFocus)) ∧
  setMaster noFocus = noFocus.
Proof.
  apply (proj1 (proj2 (getActiveScreen_needs_focused_window noFocus))).
  reflexivity.
Defined.

Lemma setMaster_idempotent_witness :
  getActiveTile (setMaster fourTiles) = Some 0.
Proof. apply (proj2 (setMaster_idempotent fourTiles) 2). reflexivity. Defined.
End MoreInstances.
